(** * nimdebugger: child-process plumbing (process.c, process_windows.c)

    A shallow embedding of the two process backends of the repository and
    the properties of their public operations.

    - [CStr]      NUL-terminated character strings and the libc helpers the
                  sources call on them ([strlen], [strchr], [strcpy]).
    - [WinQuote]  the command-line quoting of process_windows.c
                  ([needs_quoting], [quote_argument],
                  [create_command_line_ex]).
    - [WinArgv]   the argument-splitting rule of the Microsoft C runtime,
                  the consumer of the command line.
    - [Exec]      calls that return, block or store out of bounds, over
                  the state of the operating system.
    - [Posix]     process.c over a model of descriptors, children and
                  system calls.
    - [Win32]     process_windows.c over a model of handles and Win32 calls.
    - [Scenario]  the concrete inputs of the examples.

    The properties follow the definitions, one section per operation. *)

From Stdlib Require Import ZArith Ascii String List Bool Lia.
From stdpp Require Import base option list gmap.
Import ListNotations.

#[local] Open Scope Z_scope.

(* ===================================================================== *)
(** * C strings *)
(* ===================================================================== *)

Module CStr.

(** A [char]. *)
Definition char : Type := ascii.

Definition NUL    : char := "000"%char.
Definition TAB    : char := "009"%char.   (* horizontal tab *)
Definition LF     : char := "010"%char.   (* newline *)
Definition VT     : char := "011"%char.   (* vertical tab *)
Definition SPACE  : char := "032"%char.   (* space *)
Definition DQUOTE : char := "034"%char.   (* double quote *)
Definition BSLASH : char := "092"%char.   (* backslash *)

(** A [const char*] is modelled by the characters found from the pointer
    onwards; the terminator is implicit after the last element, and a
    [NUL] inside the list ends the string there, as in C.  [peek p] is
    [*p] and [tl p] is [p + 1]. *)
Definition peek (p : list char) : char :=
  match p with
  | [] => NUL
  | c :: _ => c
  end.

Definition is_nul (c : char) : bool := Ascii.eqb c NUL.

(** The string contains no embedded terminator: its contents are the
    whole list. *)
Definition wf (s : list char) : Prop := Forall (fun c => c <> NUL) s.

Definition wfb (s : list char) : bool :=
  forallb (fun c => negb (is_nul c)) s.

(** [strlen] *)
Fixpoint strlen (s : list char) : nat :=
  match s with
  | [] => 0%nat
  | c :: rest => if is_nul c then 0%nat else S (strlen rest)
  end.

(** [strchr s c]: the suffix starting at the first occurrence of [c],
    [None] for the null pointer.  The terminator is part of the string:
    looking for [NUL] finds it. *)
Fixpoint strchr (s : list char) (c : char) : option (list char) :=
  match s with
  | [] => if is_nul c then Some [] else None
  | x :: rest =>
      if Ascii.eqb x c then Some s
      else if is_nul x then None
      else strchr rest c
  end.

(** The characters [strcpy] copies before the terminator. *)
Fixpoint strcpy (s : list char) : list char :=
  match s with
  | [] => []
  | c :: rest => if is_nul c then [] else c :: strcpy rest
  end.

(** Literals for the examples. *)
Definition lit (s : string) : list char := list_ascii_of_string s.

End CStr.

(* ===================================================================== *)
(** * Windows command-line quoting (process_windows.c, lines 13-117) *)
(* ===================================================================== *)

Module WinQuote.
Import CStr.

(** [needs_quoting] *)
Definition needs_quoting (str : list char) : Z :=
  if   bool_decide (strchr str SPACE <> None)
    || bool_decide (strchr str TAB <> None)
    || bool_decide (strchr str LF <> None)
    || bool_decide (strchr str VT <> None)
    || is_nul (peek str)
  then 1 else 0.

(** The inner loop of [quote_argument],
    the loop that counts consecutive backslashes:
    the count and the pointer after the run. *)
Fixpoint count_backslashes (src : list char) (backslashes : nat)
  : nat * list char :=
  match src with
  | c :: rest =>
      if Ascii.eqb c BSLASH then count_backslashes rest (S backslashes)
      else (backslashes, src)
  | [] => (backslashes, src)
  end.

(** The outer loop of [quote_argument].  [src] is the pointer [src + i],
    [dest] the characters stored so far ([j] is its length).  Every round
    consumes at least one character; [fuel] bounds the number of rounds
    and [None] means it ran out. *)
Fixpoint quote_loop (fuel : nat) (src dest : list char)
  : option (list char) :=
  if is_nul (peek src) then Some dest
  else
    match fuel with
    | O => None
    | S fuel' =>
        let '(backslashes, src') := count_backslashes src 0 in
        if is_nul (peek src') then
          (* escape all backslashes before the closing quote; break *)
          Some (dest ++ repeat BSLASH (backslashes * 2))
        else if Ascii.eqb (peek src') DQUOTE then
          (* escape all backslashes and the quote *)
          quote_loop fuel' (tl src')
            (dest ++ repeat BSLASH (backslashes * 2) ++ [BSLASH; DQUOTE])
        else
          (* just copy the backslashes *)
          quote_loop fuel' (tl src')
            (dest ++ repeat BSLASH backslashes ++ [peek src'])
    end.

(** [quote_argument]: the string left in [dest] (before its terminator). *)
Definition quote_argument (src : list char) : option (list char) :=
  dest ← quote_loop (strlen src) src [DQUOTE];
  Some (dest ++ [DQUOTE]).

(** The bytes reserved for one token by [create_command_line_ex]. *)
Definition token_reserve (tok : list char) : Z :=
  if needs_quoting tok =? 1
  then Z.of_nat (strlen tok) * 2 + 10
  else Z.of_nat (strlen tok) + 1.

(** [length] is an [int]: what [+=] and [++] leave in it is the sum
    reduced to 32 bits, a number from [-2^31] to [2^31 - 1]. *)
Definition int_of (n : Z) : Z := (n + 2 ^ 31) mod 2 ^ 32 - 2 ^ 31.

(** The first pass of [create_command_line_ex]: [length], which starts
    from 0, is added to for the command, and for each argument is
    incremented for the separator and then added to. *)
Definition cmdline_length (cmd : list char) (args : list (list char)) : Z :=
  fold_left (fun length arg => int_of (int_of (length + 1) + token_reserve arg))
            args (int_of (0 + token_reserve cmd)).

(** The size given to [malloc]: [length + 1], an [int], taken as a
    [size_t]. *)
Definition cmdline_alloc (cmd : list char) (args : list (list char)) : Z :=
  int_of (cmdline_length cmd args + 1) mod 2 ^ 64.

(** The bytes that the tokens, their separators and their terminators
    are counted for, as a number: the sum of the first pass without the
    reduction to 32 bits. *)
Definition reserve_sum (cmd : list char) (args : list (list char)) : Z :=
  fold_left (fun n arg => n + 1 + token_reserve arg)
            args (token_reserve cmd).

(** What is appended for one token: quoted, or copied by [strcpy]. *)
Definition emit_token (tok : list char) : option (list char) :=
  if needs_quoting tok =? 1 then quote_argument tok
  else Some (strcpy tok).

(** The second loop of [create_command_line_ex]. *)
Fixpoint emit_args (args : list (list char)) (cmdline : list char)
  : option (list char) :=
  match args with
  | [] => Some cmdline
  | arg :: rest =>
      t ← emit_token arg;
      emit_args rest (cmdline ++ [SPACE] ++ t)
  end.

(** [create_command_line_ex]; [malloc_ok] is whether the allocation of
    [length + 1] bytes succeeds.  [None] is the null pointer or a quoting
    loop out of fuel. *)
Definition create_command_line_ex (malloc_ok : bool)
    (cmd : list char) (args : list (list char)) : option (list char) :=
  if negb malloc_ok then None
  else
    c ← emit_token cmd;
    emit_args args c.

(** ** The quoting algorithm as the specification words it

    A token is a sequence of segments, each a maximal run of [k]
    backslashes followed by what ends the run: a quote, the end of the
    token, or another character. *)
Inductive quoted_body : list char -> list char -> Prop :=
| qb_end k :
    quoted_body (repeat BSLASH k) (repeat BSLASH (2 * k))
| qb_quote k rest out :
    quoted_body rest out ->
    quoted_body (repeat BSLASH k ++ DQUOTE :: rest)
                (repeat BSLASH (2 * k) ++ BSLASH :: DQUOTE :: out)
| qb_other k c rest out :
    c <> BSLASH -> c <> DQUOTE ->
    quoted_body rest out ->
    quoted_body (repeat BSLASH k ++ c :: rest)
                (repeat BSLASH k ++ c :: out).

End WinQuote.

(* ===================================================================== *)
(** * The argument-splitting rule of the platform *)
(* ===================================================================== *)

(** The command line built by [create_command_line_ex] is handed to
    [CreateProcess]; the child's C runtime splits it into [argv].  That
    splitter is the platform's, not the repository's.  It is modelled here
    from Microsoft's documented rules ("Parsing C command-line arguments"):
    arguments are delimited by spaces and tabs; a double quote preceded by
    an even number [2n] of backslashes yields [n] backslashes and begins or
    ends a quoted part; preceded by an odd number [2n+1] it yields [n]
    backslashes and a literal quote; backslashes not followed by a quote
    are literal; inside a quoted part a pair of quotes is one literal
    quote.  The program name is scanned by the simpler rule: quotes only
    toggle, backslashes are ordinary. *)

Module WinArgv.
Import CStr.

Inductive mode : Type :=
| Outside        (* not in a quoted part *)
| Inside         (* in a quoted part *)
| InsideQuote.   (* in a quoted part, just after an unescaped quote *)

Record pstate : Type := mkPState {
  st_mode    : mode;
  st_slashes : nat;                (* backslashes seen, not yet emitted *)
  st_started : bool;               (* an argument is under construction *)
  st_cur     : list char;          (* the argument built so far *)
  st_done    : list (list char)    (* the arguments completed *)
}.

Definition is_blank (c : char) : bool :=
  Ascii.eqb c SPACE || Ascii.eqb c TAB.

Definition in_quotes (m : mode) : bool :=
  match m with Outside => false | _ => true end.

(** One character, when no quote is pending. *)
Definition step_plain (m : mode) (st : pstate) (c : char) : pstate :=
  if Ascii.eqb c BSLASH then
    mkPState m (S (st_slashes st)) true (st_cur st) (st_done st)
  else if Ascii.eqb c DQUOTE then
    let cur := st_cur st ++ repeat BSLASH (Nat.div2 (st_slashes st)) in
    if Nat.odd (st_slashes st) then
      mkPState m 0 true (cur ++ [DQUOTE]) (st_done st)
    else
      mkPState (if in_quotes m then InsideQuote else Inside)
               0 true cur (st_done st)
  else
    let cur := st_cur st ++ repeat BSLASH (st_slashes st) in
    if is_blank c && negb (in_quotes m) then
      if st_started st
      then mkPState Outside 0 false [] (st_done st ++ [cur])
      else st
    else mkPState m 0 true (cur ++ [c]) (st_done st).

Definition step (st : pstate) (c : char) : pstate :=
  match st_mode st with
  | InsideQuote =>
      if Ascii.eqb c DQUOTE
      then mkPState Inside 0 true (st_cur st ++ [DQUOTE]) (st_done st)
      else step_plain Outside st c
  | m => step_plain m st c
  end.

Definition finish (st : pstate) : list (list char) :=
  if st_started st
  then st_done st ++ [st_cur st ++ repeat BSLASH (st_slashes st)]
  else st_done st.

(** The arguments after the program name. *)
Definition parse_args (s : list char) : list (list char) :=
  finish (fold_left step s (mkPState Outside 0 false [] [])).

(** The program name: the name and what follows it. *)
Fixpoint parse_program (s : list char) (inq : bool) (name : list char)
  : list char * list char :=
  match s with
  | [] => (name, [])
  | c :: rest =>
      if Ascii.eqb c DQUOTE then parse_program rest (negb inq) name
      else if is_blank c && negb inq then (name, rest)
      else parse_program rest inq (name ++ [c])
  end.

(** [argv] for a whole command line. *)
Definition split_command_line (s : list char) : list (list char) :=
  let '(name, rest) := parse_program s false [] in
  name :: parse_args rest.

(** The state of the splitter between two arguments. *)
Definition between (done : list (list char)) : pstate :=
  mkPState Outside 0 false [] done.

(** A program name that is put on the command line as it is and read back
    as it is: no white space and no double quote. *)
Definition plain_name (s : list char) : Prop :=
  wf s /\ WinQuote.needs_quoting s = 0 /\ ~ In DQUOTE s.

(** An argument with white space (it is quoted), or without a double
    quote. *)
Definition safe_arg (s : list char) : Prop :=
  wf s /\ (WinQuote.needs_quoting s = 1 \/ ~ In DQUOTE s).

End WinArgv.

(* ===================================================================== *)
(** * Calls into the operating system *)
(* ===================================================================== *)

(** The operations of both backends are sequences of system calls.  A call
    of an operation either returns a value, does not return (it is blocked
    in a system call, loops for ever, or the process image is gone), or
    stores outside the object it was given.  The state of the operating
    system is threaded through. *)

Module Exec.

Inductive outcome (A : Type) : Type :=
| Returns (a : A)
| NoReturn
| Undefined.
Arguments Returns {A} a.
Arguments NoReturn {A}.
Arguments Undefined {A}.

Definition M (W A : Type) : Type := W -> outcome A * W.

Definition ret {W A : Type} (a : A) : M W A := fun w => (Returns a, w).

Definition bind {W A B : Type} (m : M W A) (k : A -> M W B) : M W B :=
  fun w =>
    match m w with
    | (Returns a, w') => k a w'
    | (NoReturn, w') => (NoReturn, w')
    | (Undefined, w') => (Undefined, w')
    end.

Definition no_return {W A : Type} : M W A := fun w => (NoReturn, w).
Definition undefined {W A : Type} : M W A := fun w => (Undefined, w).

(** The value a call returned, if it returned. *)
Definition returned {A W : Type} (r : outcome A * W) : option A :=
  match r with
  | (Returns a, _) => Some a
  | _ => None
  end.

Module Notations.
Notation "x <- m ;; k" := (bind m (fun x => k))
  (at level 100, m at next level, right associativity).
Notation "m ;; k" := (bind m (fun _ => k))
  (at level 100, right associativity).
End Notations.

(** Integer conversions: to [int] (32 bits, signed), to [size_t]
    (64 bits) and to [DWORD] (32 bits, unsigned). *)
Definition to_int (n : Z) : Z := (n + 2 ^ 31) mod 2 ^ 32 - 2 ^ 31.
Definition to_size_t (n : Z) : Z := n mod 2 ^ 64.
Definition to_dword (n : Z) : Z := n mod 2 ^ 32.
Definition INT_MAX : Z := 2 ^ 31 - 1.

(** A caller's [char] buffer.  A store inside it updates it; a store
    outside it is undefined behaviour. *)
Definition store {W : Type} (buffer : list CStr.char) (i : Z) (c : CStr.char)
  : M W (list CStr.char) :=
  if (0 <=? i) && (i <? Z.of_nat (length buffer))
  then ret (<[Z.to_nat i := c]> buffer)
  else undefined.

(** What a successful read of [n] bytes leaves in the buffer. *)
Definition fill (buffer data : list CStr.char) (n : Z) : list CStr.char :=
  take (Z.to_nat n) data ++ drop (Z.to_nat n) buffer.

(** What a read operation that returned [n] has done to the caller's
    buffer of [size] bytes, [data] being what the operating system had to
    deliver: a positive [n] means [n] bytes of [data], a terminator at
    index [n] and the rest as it was; otherwise the buffer is as it was. *)
Definition read_result (buffer data : list CStr.char) (size n : Z)
    (buffer' : list CStr.char) : Prop :=
  n <= size - 1
  /\ (0 < n ->
      n <= Z.of_nat (length data)
      /\ buffer' = take (Z.to_nat n) data
                   ++ CStr.NUL :: drop (S (Z.to_nat n)) buffer)
  /\ (n <= 0 -> buffer' = buffer).

End Exec.

(* ===================================================================== *)
(** * The POSIX backend (process.c) *)
(* ===================================================================== *)

Module Posix.
Import CStr Exec Exec.Notations.

(** Constants of the system headers (their Linux values). *)
Definition EINTR         : Z := 4.
Definition POLLIN        : Z := 1.
Definition POLLHUP       : Z := 16.
Definition WNOHANG       : Z := 1.
Definition STDIN_FILENO  : Z := 0.
Definition STDOUT_FILENO : Z := 1.
Definition STDERR_FILENO : Z := 2.
Definition EXIT_FAILURE  : Z := 1.

(** [ProcessHandle] of process.h.  A [ProcessHandle*] is an
    [option ProcessHandle], [None] being the null pointer. *)
Record ProcessHandle : Type := mkHandle {
  pid       : Z;
  input_fd  : Z;
  output_fd : Z;
  error_fd  : Z
}.

(** ** The operating system *)

(** A child of this process that has not been waited for: running (with
    the status it will exit with by itself, if it ever does), or exited
    with its status still to be collected. *)
Inductive child_state : Type :=
| Running (fate : option Z)
| Exited (status : Z).

Inductive event : Type :=
| EvPipe (ends : option (Z * Z))
| EvFork (result : Z)
| EvClose (fd : Z)
| EvDup2 (oldfd newfd : Z)
| EvSetNonblock (fd : Z)
| EvExecvp (cmd : list char) (args : list (list char))
| EvExit (status : Z)
| EvMalloc (ok : bool)
| EvFree
| EvWaitpid (child options result : Z)
| EvWaitpidBlocked (child : Z)
| EvWrite (fd : Z) (bytes : list char) (result : Z)
| EvFsync (fd : Z)
| EvPoll (on : list Z) (timeout_ms result : Z)
| EvRead (fd count result : Z)
| EvPerror (what : string).

Record world : Type := mkWorld {
  fds      : gset Z;               (* the open descriptors *)
  next_fd  : Z;                    (* descriptors from here on are unused *)
  children : gmap Z child_state;   (* children not yet waited for *)
  heap     : nat;                  (* live [malloc] blocks *)
  trace    : list event            (* the system calls made, in order *)
}.

Definition set_fds (f : gset Z -> gset Z) (w : world) : world :=
  mkWorld (f (fds w)) (next_fd w) (children w) (heap w) (trace w).
Definition set_next_fd (n : Z) (w : world) : world :=
  mkWorld (fds w) n (children w) (heap w) (trace w).
Definition set_children (f : gmap Z child_state -> gmap Z child_state)
    (w : world) : world :=
  mkWorld (fds w) (next_fd w) (f (children w)) (heap w) (trace w).
Definition set_heap (f : nat -> nat) (w : world) : world :=
  mkWorld (fds w) (next_fd w) (children w) (f (heap w)) (trace w).
Definition record (e : event) (w : world) : world :=
  mkWorld (fds w) (next_fd w) (children w) (heap w) (trace w ++ [e]).

(** ** System calls

    What the operating system decides (whether a resource is granted,
    how many bytes a pipe takes, what [poll] reports) is an argument of
    the call. *)

(** [pipe(ends)]: the read end [ends[0]] and the write end [ends[1]].
    The two descriptors are not in use before the call.  The system takes
    the lowest numbers not in use; here they are the next two of a
    counter that is above every open descriptor ([fresh_ok]), which are
    the same numbers when no descriptor below the counter is closed.
    Where a property depends on the numbers, its statement says which
    descriptors are open. *)
Definition pipe (granted : bool) : M world (option (Z * Z)) := fun w =>
  if granted then
    let r := next_fd w in
    (Returns (Some (r, r + 1)),
     record (EvPipe (Some (r, r + 1)))
       (set_next_fd (r + 2) (set_fds (fun s => {[r; r + 1]} ∪ s) w)))
  else (Returns None, record (EvPipe None) w).

Inductive fork_result : Type :=
| ForkFails
| ForkInChild                                   (* the copy that is the child *)
| ForkInParent (child : positive) (fate : option Z).

Definition fork (r : fork_result) : M world Z := fun w =>
  match r with
  | ForkFails => (Returns (-1), record (EvFork (-1)) w)
  | ForkInChild => (Returns 0, record (EvFork 0) w)
  | ForkInParent p fate =>
      (Returns (Z.pos p),
       record (EvFork (Z.pos p))
         (set_children (fun c => <[Z.pos p := Running fate]> c) w))
  end.

Definition close (fd : Z) : M world unit := fun w =>
  (Returns tt, record (EvClose fd) (set_fds (fun s => s ∖ {[fd]}) w)).

Definition dup2 (oldfd newfd : Z) : M world unit := fun w =>
  (Returns tt, record (EvDup2 oldfd newfd) (set_fds (fun s => {[newfd]} ∪ s) w)).

(** [fcntl(fd, F_SETFL, O_NONBLOCK)] *)
Definition set_nonblock (fd : Z) : M world unit := fun w =>
  (Returns tt, record (EvSetNonblock fd) w).

(** [execvp] returns only when it fails. *)
Definition execvp (ok : bool) (cmd : list char) (args : list (list char))
  : M world Z := fun w =>
  if ok then (NoReturn, record (EvExecvp cmd args) w)
  else (Returns (-1), record (EvExecvp cmd args) w).

Definition exit {A : Type} (status : Z) : M world A := fun w =>
  (NoReturn, record (EvExit status) w).

Definition perror (what : string) : M world unit := fun w =>
  (Returns tt, record (EvPerror what) w).

Definition malloc (granted : bool) : M world bool := fun w =>
  (Returns granted,
   record (EvMalloc granted) (if granted then set_heap S w else w)).

Definition free : M world unit := fun w =>
  (Returns tt, record EvFree (set_heap Nat.pred w)).

(** [waitpid(child, _, options)] for one child.  An exited child is
    collected: its status is consumed and it is no child any more.  A
    running child gives 0 under [WNOHANG]; without it the call blocks
    until the child exits, for ever if it never does. *)
Definition waitpid (child options : Z) : M world Z := fun w =>
  let collect :=
    (Returns child,
     record (EvWaitpid child options child)
       (set_children (fun c => delete child c) w)) in
  match children w !! child with
  | None => (Returns (-1), record (EvWaitpid child options (-1)) w)
  | Some (Exited _) => collect
  | Some (Running fate) =>
      if negb (Z.land options WNOHANG =? 0)
      then (Returns 0, record (EvWaitpid child options 0) w)
      else match fate with
           | Some _ => collect
           | None => (NoReturn, record (EvWaitpidBlocked child) w)
           end
  end.

(** One [write]: it fails with an [errno], or the pipe takes up to [n]
    bytes. *)
Inductive write_outcome : Type :=
| WriteFails (errno : Z)
| WriteTakes (n : nat).

(** The result and [errno]. *)
Definition write (o : write_outcome) (fd : Z) (data : list char) (count : Z)
  : M world (Z * Z) := fun w =>
  match o with
  | WriteFails e => (Returns (-1, e), record (EvWrite fd [] (-1)) w)
  | WriteTakes n =>
      let k := Z.min (Z.of_nat n) count in
      (Returns (k, 0),
       record (EvWrite fd (take (Z.to_nat k) data) k) w)
  end.

Definition fsync (fd : Z) : M world unit := fun w =>
  (Returns tt, record (EvFsync fd) w).

(** The answer of one [poll]: its result and the [revents] of each entry
    (0 for an entry not listed). *)
Record poll_answer : Type := mkPoll {
  poll_result  : Z;
  poll_revents : list Z
}.

(** [struct pollfd], its [events] being [POLLIN] throughout. *)
Record pollfd : Type := mkPollfd { pfd_fd : Z; pfd_revents : Z }.

Definition poll (a : poll_answer) (on : list Z) (timeout_ms : Z)
  : M world (Z * list pollfd) := fun w =>
  (Returns (poll_result a,
            imap (fun i fd => mkPollfd fd (nth i (poll_revents a) 0)) on),
   record (EvPoll on timeout_ms (poll_result a)) w).

(** One [read]: it fails, or [data] is what the pipe holds (nothing at
    end of stream).  The answer is the one of the system: to a count that
    no buffer can hold, such as a negative [int] taken as a [size_t], it
    answers with a failure and not with data. *)
Inductive read_outcome : Type :=
| ReadFails (errno : Z)
| ReadGives (data : list char).

Definition read (o : read_outcome) (fd : Z) (buffer : list char) (count : Z)
  : M world (Z * list char) :=
  match o with
  | ReadFails _ => fun w => (Returns (-1, buffer), record (EvRead fd count (-1)) w)
  | ReadGives data =>
      let n := Z.min (to_size_t count) (Z.of_nat (length data)) in
      if n <=? Z.of_nat (length buffer)
      then fun w => (Returns (n, fill buffer data n), record (EvRead fd count n) w)
      else undefined
  end.

(** ** The operations of process.c *)

(** What the operating system answers during one [start_process]. *)
Record spawn_env : Type := mkSpawnEnv {
  pipe_stdin_ok  : bool;
  pipe_stdout_ok : bool;
  pipe_stderr_ok : bool;
  fork_answer    : fork_result;
  exec_ok        : bool;
  malloc_ok      : bool
}.

Definition start_process (env : spawn_env)
    (cmd : list char) (args : list (list char))
  : M world (option ProcessHandle) :=
  let pipe_failed : M world (option ProcessHandle) :=
    (perror "pipe" ;; ret None) in
  p1 <- pipe (pipe_stdin_ok env) ;;
  match p1 with
  | None => pipe_failed
  | Some child_stdin =>
  p2 <- pipe (pipe_stdout_ok env) ;;
  match p2 with
  | None => pipe_failed
  | Some child_stdout =>
  p3 <- pipe (pipe_stderr_ok env) ;;
  match p3 with
  | None => pipe_failed
  | Some child_stderr =>
  pid <- fork (fork_answer env) ;;
  if pid =? -1 then
    perror "fork" ;; ret None
  else if pid =? 0 then
    (* child: close the parent's ends *)
    close (snd child_stdin) ;;
    close (fst child_stdout) ;;
    close (fst child_stderr) ;;
    (* redirect the standard streams *)
    dup2 (fst child_stdin) STDIN_FILENO ;;
    dup2 (snd child_stdout) STDOUT_FILENO ;;
    dup2 (snd child_stderr) STDERR_FILENO ;;
    (* close the original pipe descriptors *)
    close (fst child_stdin) ;;
    close (snd child_stdout) ;;
    close (snd child_stderr) ;;
    execvp (exec_ok env) cmd args ;;
    perror "execvp" ;;
    exit EXIT_FAILURE
  else
    (* parent: close the child's ends *)
    close (fst child_stdin) ;;
    close (snd child_stdout) ;;
    close (snd child_stderr) ;;
    set_nonblock (fst child_stdout) ;;
    set_nonblock (fst child_stderr) ;;
    handle <- malloc (malloc_ok env) ;;
    if negb handle then
      perror "malloc" ;;
      close (snd child_stdin) ;;
      close (fst child_stdout) ;;
      close (fst child_stderr) ;;
      ret None
    else
      ret (Some (mkHandle pid (snd child_stdin)
                          (fst child_stdout) (fst child_stderr)))
  end end end.

Definition when (b : bool) (m : M world unit) : M world unit :=
  if b then m else ret tt.

Definition close_process (handle : option ProcessHandle) : M world unit :=
  match handle with
  | None => ret tt
  | Some h =>
      when (input_fd h >=? 0) (close (input_fd h)) ;;
      when (output_fd h >=? 0) (close (output_fd h)) ;;
      when (error_fd h >=? 0) (close (error_fd h)) ;;
      waitpid (pid h) 0 ;;
      free
  end.

Definition is_running (handle : option ProcessHandle) : M world Z :=
  match handle with
  | None => ret 0
  | Some h =>
      result <- waitpid (pid h) WNOHANG ;;
      if result =? 0 then ret 1          (* still running *)
      else if result =? -1 then ret 0    (* error or no such process *)
      else ret 0                         (* has exited *)
  end.

(** How the loop of [write_to_process] is left: by its [return -1], or
    by its condition with the bytes written. *)
Inductive loop_exit : Type :=
| ReturnNow (value : Z)
| LoopDone (total_written : Z).

(** The loop of [write_to_process].  [script] is what the successive
    calls of [write] meet; when it is used up the call is still in its
    loop. *)
Fixpoint write_loop (script : list write_outcome) (h : ProcessHandle)
    (data : list char) (length total_written : Z) : M world loop_exit :=
  if total_written <? length then
    match script with
    | [] => no_return
    | o :: script' =>
        r <- write o (input_fd h) (drop (Z.to_nat total_written) data)
                   (length - total_written) ;;
        let '(written, errno) := r in
        if written <? 0 then
          if errno =? EINTR
          then write_loop script' h data length total_written
          else ret (ReturnNow (-1))
        else write_loop script' h data length (total_written + written)
    end
  else ret (LoopDone total_written).

Definition write_to_process (script : list write_outcome)
    (handle : option ProcessHandle) (data : list char) (length : Z)
  : M world Z :=
  match handle with
  | None => ret (-1)
  | Some h =>
      if input_fd h <? 0 then ret (-1)
      else
        e <- write_loop script h data length 0 ;;
        match e with
        | ReturnNow v => ret v
        | LoopDone total_written =>
            fsync (input_fd h) ;;      (* flush the data *)
            ret total_written
        end
  end.

(** [revents & flag] *)
Definition has (revents flag : Z) : bool := negb (Z.land revents flag =? 0).

(** The [read] and the termination of the buffer that the three read
    operations share. *)
Definition read_terminated (o : read_outcome) (fd : Z)
    (buffer : list char) (buffer_size : Z) : M world (Z * list char) :=
  r <- read o fd buffer (buffer_size - 1) ;;
  let bytes_read := to_int (fst r) in
  buffer' <- (if bytes_read >? 0
              then store (snd r) bytes_read NUL   (* null-terminate *)
              else ret (snd r)) ;;
  ret (bytes_read, buffer').

(** The body of [read_from_output] and [read_from_error] after the test
    of the handle; [fd] is [handle->output_fd], respectively
    [handle->error_fd]. *)
Definition read_from (a : poll_answer) (o : read_outcome) (fd : Z)
    (buffer : list char) (buffer_size timeout_ms : Z)
  : M world (Z * list char) :=
  r <- poll a [fd] timeout_ms ;;
  let poll_result := fst r in
  let revents := match snd r with p :: _ => pfd_revents p | [] => 0 end in
  if poll_result =? -1 then ret (-1, buffer)          (* poll error *)
  else if poll_result =? 0 then ret (0, buffer)       (* timeout *)
  else if has revents POLLIN then read_terminated o fd buffer buffer_size
  else if has revents POLLHUP then ret (0, buffer)    (* EOF *)
  else ret (-1, buffer).                              (* other poll event *)

Definition read_from_output (a : poll_answer) (o : read_outcome)
    (handle : option ProcessHandle)
    (buffer : list char) (buffer_size timeout_ms : Z)
  : M world (Z * list char) :=
  match handle with
  | None => ret (-1, buffer)
  | Some h =>
      if output_fd h <? 0 then ret (-1, buffer)
      else read_from a o (output_fd h) buffer buffer_size timeout_ms
  end.

Definition read_from_error (a : poll_answer) (o : read_outcome)
    (handle : option ProcessHandle)
    (buffer : list char) (buffer_size timeout_ms : Z)
  : M world (Z * list char) :=
  match handle with
  | None => ret (-1, buffer)
  | Some h =>
      if error_fd h <? 0 then ret (-1, buffer)
      else read_from a o (error_fd h) buffer buffer_size timeout_ms
  end.

(** [if (source) *source = v]: [source] is [None] for the null pointer,
    else the [int] it points to. *)
Definition assign (source : option Z) (v : Z) : option Z :=
  match source with
  | Some _ => Some v
  | None => None
  end.

(** The [for] loop of [read_available] from index [i] on. *)
Fixpoint scan_ready (o : read_outcome) (h : ProcessHandle)
    (buffer : list char) (buffer_size : Z) (source : option Z)
    (i : nat) (pfds : list pollfd) : M world (Z * list char * option Z) :=
  match pfds with
  | [] => ret (0, buffer, source)
  | p :: rest =>
      if has (pfd_revents p) POLLIN then
        let '(fd_to_read, source') :=
          if (i =? 0)%nat && (output_fd h >=? 0)
          then (output_fd h, assign source 1)    (* stdout *)
          else (error_fd h, assign source 2) in  (* stderr *)
        r <- read_terminated o fd_to_read buffer buffer_size ;;
        ret (fst r, snd r, source')
      else scan_ready o h buffer buffer_size source (S i) rest
  end.

Definition read_available (a : poll_answer) (o : read_outcome)
    (handle : option ProcessHandle)
    (buffer : list char) (buffer_size timeout_ms : Z) (source : option Z)
  : M world (Z * list char * option Z) :=
  match handle with
  | None => ret (-1, buffer, source)
  | Some h =>
      let on := (if output_fd h >=? 0 then [output_fd h] else [])
             ++ (if error_fd h >=? 0 then [error_fd h] else []) in
      if (length on =? 0)%nat then ret (-1, buffer, source)
      else
        r <- poll a on timeout_ms ;;
        if fst r =? -1 then ret (-1, buffer, source)       (* poll error *)
        else if fst r =? 0 then ret (0, buffer, source)    (* timeout *)
        else scan_ready o h buffer buffer_size source 0 (snd r)
  end.

(** ** The environment and what is observed of a run *)

(** The child exits by itself, with the status it was going to exit with. *)
Definition child_exits (child : Z) (w : world) : world :=
  match children w !! child with
  | Some (Running (Some status)) =>
      set_children (fun c => <[child := Exited status]> c) w
  | _ => w
  end.

(** What happens to a handle between its creation and its teardown, as
    far as liveness goes: the caller probes it, or the child exits. *)
Inductive action : Type :=
| Probe
| ChildExits.

(** The results of the probes of a run. *)
Fixpoint observe (h : ProcessHandle) (acts : list action) (w : world)
  : list (option Z) :=
  match acts with
  | [] => []
  | Probe :: rest =>
      let r := is_running (Some h) w in
      returned r :: observe h rest (snd r)
  | ChildExits :: rest => observe h rest (child_exits (pid h) w)
  end.

(** The number of probes of a run. *)
Fixpoint probes (acts : list action) : nat :=
  match acts with
  | [] => 0
  | Probe :: rest => S (probes rest)
  | ChildExits :: rest => probes rest
  end.

(** Every open descriptor is below the next one to be handed out. *)
Definition fresh_ok (w : world) : Prop :=
  forall fd, fd ∈ fds w -> fd < next_fd w.

(** The descriptor of the [read] a trace ends with, when it ends with
    one. *)
Definition last_read (t : list event) : option Z :=
  match last t with
  | Some (EvRead fd _ _) => Some fd
  | _ => None
  end.

(** The bytes the [write] calls of a trace put into [fd]. *)
Fixpoint written_to (fd : Z) (t : list event) : list char :=
  match t with
  | [] => []
  | EvWrite fd' bytes _ :: rest =>
      if fd' =? fd then bytes ++ written_to fd rest else written_to fd rest
  | _ :: rest => written_to fd rest
  end.

(** How one [poll] on a single descriptor and the [read] after it went:
    the timeout elapsed; the descriptor is at end of stream (readable with
    nothing to read, or hung up); [poll] failed; the [read] failed. *)
Definition revents_of (a : poll_answer) : Z := nth 0 (poll_revents a) 0.

Definition timed_out (a : poll_answer) : Prop := poll_result a = 0.

Definition poll_failed (a : poll_answer) : Prop := poll_result a = -1.

Definition ready (a : poll_answer) : Prop :=
  poll_result a <> 0 /\ poll_result a <> -1.

Definition end_of_stream (a : poll_answer) (o : read_outcome) : Prop :=
  ready a
  /\ ((has (revents_of a) POLLIN = true /\ o = ReadGives [])
      \/ (has (revents_of a) POLLIN = false
          /\ has (revents_of a) POLLHUP = true)).

Definition read_failed (a : poll_answer) (o : read_outcome) : Prop :=
  ready a /\ has (revents_of a) POLLIN = true /\ exists e, o = ReadFails e.

(** What one [read] had to deliver. *)
Definition delivered (o : read_outcome) : list char :=
  match o with
  | ReadGives data => data
  | ReadFails _ => []
  end.

(** A failure of [write] other than an interruption. *)
Definition hard (o : write_outcome) : bool :=
  match o with
  | WriteFails e => negb (e =? EINTR)
  | WriteTakes _ => false
  end.

(** The bytes the pipe takes over a whole script. *)
Fixpoint capacity (script : list write_outcome) : Z :=
  match script with
  | [] => 0
  | WriteTakes n :: rest => Z.of_nat n + capacity rest
  | WriteFails _ :: rest => capacity rest
  end.

(** A process with its three standard descriptors open and no child. *)
Definition boot : world := mkWorld {[0; 1; 2]} 3 ∅ 0 [].

End Posix.

(* ===================================================================== *)
(** * The Windows backend (process_windows.c) *)
(* ===================================================================== *)

Module Win32.
Import CStr Exec Exec.Notations.

(** Constants of the Windows headers. *)
Definition INVALID_HANDLE_VALUE : Z := -1.
Definition NULL_HANDLE          : Z := 0.
Definition WAIT_OBJECT_0        : Z := 0.
Definition WAIT_TIMEOUT         : Z := 258.
Definition WAIT_FAILED          : Z := 4294967295.
Definition ERROR_BROKEN_PIPE    : Z := 109.
Definition ERROR_NO_DATA        : Z := 232.
Definition ERROR_IO_PENDING     : Z := 997.
Definition STILL_ACTIVE         : Z := 259.

(** [ProcessHandle] of process_windows.h. *)
Record ProcessHandle : Type := mkHandle {
  pid       : Z;
  hProcess  : Z;
  input_fd  : Z;
  output_fd : Z;
  error_fd  : Z
}.

(** ** The operating system *)

Inductive process_state : Type :=
| Running
| Exited (code : Z).

Inductive event : Type :=
| EvCreatePipe (ends : option (Z * Z))
| EvSetHandleInformation (h : Z) (ok : bool)
| EvCreateProcess (cmdline : list char) (ok : bool)
| EvCloseHandle (h : Z)
| EvTerminateProcess (h code : Z)
| EvWaitForSingleObject (h ms result : Z)
| EvWaitForMultipleObjects (hs : list Z) (ms result : Z)
| EvGetExitCodeProcess (h : Z)
| EvCreateEvent (h : Z)
| EvReadFile (h count : Z) (ok : bool)
| EvGetOverlappedResult (h : Z) (ok : bool)
| EvCancelIo (h : Z)
| EvWriteFile (h : Z) (bytes : list char) (ok : bool)
| EvFlushFileBuffers (h : Z)
| EvMalloc (ok : bool)
| EvFree.

Record world : Type := mkWorld {
  handles     : gset Z;                (* the open handles *)
  next_handle : Z;                     (* values from here on are unused *)
  processes   : gmap Z process_state;  (* by process handle *)
  heap        : nat;                   (* live [malloc] blocks *)
  last_error  : Z;                     (* what [GetLastError] returns *)
  trace       : list event             (* the calls made, in order *)
}.

Definition set_handles (f : gset Z -> gset Z) (w : world) : world :=
  mkWorld (f (handles w)) (next_handle w) (processes w) (heap w)
          (last_error w) (trace w).
Definition set_next_handle (n : Z) (w : world) : world :=
  mkWorld (handles w) n (processes w) (heap w) (last_error w) (trace w).
Definition set_processes
    (f : gmap Z process_state -> gmap Z process_state) (w : world) : world :=
  mkWorld (handles w) (next_handle w) (f (processes w)) (heap w)
          (last_error w) (trace w).
Definition set_heap (f : nat -> nat) (w : world) : world :=
  mkWorld (handles w) (next_handle w) (processes w) (f (heap w))
          (last_error w) (trace w).
Definition set_last_error (e : Z) (w : world) : world :=
  mkWorld (handles w) (next_handle w) (processes w) (heap w) e (trace w).
Definition record (e : event) (w : world) : world :=
  mkWorld (handles w) (next_handle w) (processes w) (heap w)
          (last_error w) (trace w ++ [e]).

(** ** Win32 calls *)

(** [CreatePipe(&rd, &wr, ..)]: the two ends, [None] for [FALSE]. *)
Definition CreatePipe (granted : bool) : M world (option (Z * Z)) := fun w =>
  if granted then
    let r := next_handle w in
    (Returns (Some (r, r + 1)),
     record (EvCreatePipe (Some (r, r + 1)))
       (set_next_handle (r + 2) (set_handles (fun s => {[r; r + 1]} ∪ s) w)))
  else (Returns None, record (EvCreatePipe None) w).

Definition SetHandleInformation (ok : bool) (h : Z) : M world bool := fun w =>
  (Returns ok, record (EvSetHandleInformation h ok) w).

Definition CloseHandle (h : Z) : M world unit := fun w =>
  (Returns tt, record (EvCloseHandle h) (set_handles (fun s => s ∖ {[h]}) w)).

Definition malloc (granted : bool) : M world bool := fun w =>
  (Returns granted,
   record (EvMalloc granted) (if granted then set_heap S w else w)).

Definition free : M world unit := fun w =>
  (Returns tt, record EvFree (set_heap Nat.pred w)).

(** [PROCESS_INFORMATION] *)
Record process_information : Type := mkProcInfo {
  pi_hProcess    : Z;
  pi_hThread     : Z;
  pi_dwProcessId : Z
}.

(** [CreateProcess]: [answer] is the identifier of the new process,
    [None] when the creation fails.  A new process comes with a process
    handle and a thread handle. *)
Definition CreateProcess (answer : option positive) (cmdline : list char)
  : M world (option process_information) := fun w =>
  match answer with
  | None => (Returns None, record (EvCreateProcess cmdline false) w)
  | Some id =>
      let hp := next_handle w in
      (Returns (Some (mkProcInfo hp (hp + 1) (Z.pos id))),
       record (EvCreateProcess cmdline true)
         (set_processes (fun p => <[hp := Running]> p)
            (set_next_handle (hp + 2)
               (set_handles (fun s => {[hp; hp + 1]} ∪ s) w))))
  end.

(** [TerminateProcess]: a running process is ended with the exit code.
    The request is taken as granted and as done at once; a request that
    fails, or a process that ends later, is not described. *)
Definition TerminateProcess (h code : Z) : M world unit := fun w =>
  (Returns tt,
   record (EvTerminateProcess h code)
     (match processes w !! h with
      | Some Running => set_processes (fun p => <[h := Exited code]> p) w
      | _ => w
      end)).

(** The result of a wait is the answer of the operating system. *)
Definition WaitForSingleObject (answer : Z) (h ms : Z) : M world Z := fun w =>
  (Returns answer, record (EvWaitForSingleObject h ms answer) w).

Definition WaitForMultipleObjects (answer : Z) (hs : list Z) (ms : Z)
  : M world Z := fun w =>
  (Returns answer, record (EvWaitForMultipleObjects hs ms answer) w).

(** [GetExitCodeProcess(h, &exitCode)]: whether it succeeds, and the
    code.  It succeeds on an open handle of a process, with
    [STILL_ACTIVE] while the process runs. *)
Definition GetExitCodeProcess (h : Z) : M world (bool * Z) := fun w =>
  (Returns
     (if bool_decide (h ∈ handles w) then
        match processes w !! h with
        | Some Running => (true, STILL_ACTIVE)
        | Some (Exited code) => (true, to_dword code)
        | None => (false, 0)
        end
      else (false, 0)),
   record (EvGetExitCodeProcess h) w).

(** [CreateEvent]: a fresh handle, [NULL] when refused. *)
Definition CreateEvent (granted : bool) : M world Z := fun w =>
  if granted then
    let h := next_handle w in
    (Returns h,
     record (EvCreateEvent h)
       (set_next_handle (h + 1) (set_handles (fun s => {[h]} ∪ s) w)))
  else (Returns NULL_HANDLE, record (EvCreateEvent NULL_HANDLE) w).

(** One [ReadFile]: it completes with the data of the pipe, or fails
    with an error code, [ERROR_IO_PENDING] for a read that has started
    and not completed. *)
Inductive readfile_outcome : Type :=
| ReadCompletes (data : list char)
| ReadFails (error : Z).

(** Success, [bytesRead] and the buffer. *)
Definition ReadFile (o : readfile_outcome) (h : Z) (buffer : list char)
    (count bytesRead : Z) : M world (bool * Z * list char) :=
  match o with
  | ReadFails e => fun w =>
      (Returns (false, bytesRead, buffer),
       record (EvReadFile h count false) (set_last_error e w))
  | ReadCompletes data =>
      let n := Z.min (to_dword count) (Z.of_nat (length data)) in
      if n <=? Z.of_nat (length buffer)
      then fun w => (Returns (true, n, fill buffer data n),
                     record (EvReadFile h count true) w)
      else undefined
  end.

(** [GetOverlappedResult] for a started read of [count] bytes: the data
    transferred, [None] when it fails. *)
Definition GetOverlappedResult (o : option (list char)) (h : Z)
    (buffer : list char) (count bytesRead : Z)
  : M world (bool * Z * list char) :=
  match o with
  | None => fun w =>
      (Returns (false, bytesRead, buffer),
       record (EvGetOverlappedResult h false) w)
  | Some data =>
      let n := Z.min (to_dword count) (Z.of_nat (length data)) in
      if n <=? Z.of_nat (length buffer)
      then fun w => (Returns (true, n, fill buffer data n),
                     record (EvGetOverlappedResult h true) w)
      else undefined
  end.

Definition CancelIo (h : Z) : M world unit := fun w =>
  (Returns tt, record (EvCancelIo h) w).

Definition GetLastError : M world Z := fun w => (Returns (last_error w), w).

(** One [WriteFile]: the pipe takes up to [n] bytes, or the call fails
    with an error code. *)
Inductive writefile_outcome : Type :=
| WriteTakes (n : nat)
| WriteFails (error : Z).

(** Success and [bytesWritten]. *)
Definition WriteFile (o : writefile_outcome) (h : Z) (data : list char)
    (length : Z) : M world (bool * Z) := fun w =>
  match o with
  | WriteFails e =>
      (Returns (false, 0),
       record (EvWriteFile h [] false) (set_last_error e w))
  | WriteTakes n =>
      let k := Z.min (Z.of_nat n) (to_dword length) in
      (Returns (true, k),
       record (EvWriteFile h (take (Z.to_nat k) data) true) w)
  end.

Definition FlushFileBuffers (h : Z) : M world unit := fun w =>
  (Returns tt, record (EvFlushFileBuffers h) w).

Definition when (b : bool) (m : M world unit) : M world unit :=
  if b then m else ret tt.

Definition valid (h : Z) : bool := negb (h =? INVALID_HANDLE_VALUE).

(** ** The operations of process_windows.c *)

(** What the operating system answers during one [read_from_handle]. *)
Record read_env : Type := mkReadEnv {
  event_granted     : bool;
  readfile_answer   : readfile_outcome;
  wait_answer       : Z;
  overlapped_answer : option (list char)
}.

(** [read_from_handle].  [bytesRead] is a [DWORD]: the assignment of -1
    stores [to_dword (-1)]. *)
Definition read_from_handle (env : read_env) (h : Z)
    (buffer : list char) (buffer_size timeout_ms : Z)
  : M world (Z * list char) :=
  if h =? INVALID_HANDLE_VALUE then ret (-1, buffer)
  else
    let bytesRead := 0 in
    hEvent <- CreateEvent (event_granted env) ;;
    if hEvent =? NULL_HANDLE then ret (-1, buffer)
    else
      (* start the asynchronous read *)
      r <- ReadFile (readfile_answer env) h buffer (buffer_size - 1)
                    bytesRead ;;
      let '(success, bytesRead, buffer) := r in
      r <- (if negb success then
              err <- GetLastError ;;
              if err =? ERROR_IO_PENDING then
                (* wait for the read to complete *)
                waitResult <- WaitForSingleObject (wait_answer env)
                                hEvent timeout_ms ;;
                if waitResult =? WAIT_OBJECT_0 then
                  (* read completed, get the result *)
                  g <- GetOverlappedResult (overlapped_answer env) h buffer
                         (buffer_size - 1) bytesRead ;;
                  let '(ok, bytesRead, buffer) := g in
                  if negb ok then ret (0, buffer)
                  else ret (bytesRead, buffer)
                else
                  (* timeout or error *)
                  CancelIo h ;;
                  ret (0, buffer)
              else if err =? ERROR_BROKEN_PIPE then
                ret (0, buffer)                 (* pipe was closed *)
              else
                ret (to_dword (-1), buffer)     (* other error *)
            else ret (bytesRead, buffer)) ;;
      let '(bytesRead, buffer) := r in
      when (negb (hEvent =? INVALID_HANDLE_VALUE)) (CloseHandle hEvent) ;;
      if bytesRead >? 0 then
        buffer <- store buffer bytesRead NUL ;;   (* null-terminate *)
        ret (to_int bytesRead, buffer)
      else if bytesRead =? 0 then
        ret (0, buffer)                            (* EOF or timeout *)
      else ret (to_int bytesRead, buffer).

Definition read_from_output (env : read_env) (handle : option ProcessHandle)
    (buffer : list char) (buffer_size timeout_ms : Z)
  : M world (Z * list char) :=
  match handle with
  | None => ret (-1, buffer)
  | Some h =>
      if output_fd h =? INVALID_HANDLE_VALUE then ret (-1, buffer)
      else read_from_handle env (output_fd h) buffer buffer_size timeout_ms
  end.

Definition read_from_error (env : read_env) (handle : option ProcessHandle)
    (buffer : list char) (buffer_size timeout_ms : Z)
  : M world (Z * list char) :=
  match handle with
  | None => ret (-1, buffer)
  | Some h =>
      if error_fd h =? INVALID_HANDLE_VALUE then ret (-1, buffer)
      else read_from_handle env (error_fd h) buffer buffer_size timeout_ms
  end.

Definition assign (source : option Z) (v : Z) : option Z :=
  match source with
  | Some _ => Some v
  | None => None
  end.

(** What the operating system answers during one [read_available]. *)
Record avail_env : Type := mkAvailEnv {
  multi_wait_answer : Z;
  avail_readfile    : readfile_outcome
}.

Definition read_available (env : avail_env) (handle : option ProcessHandle)
    (buffer : list char) (buffer_size timeout_ms : Z) (source : option Z)
  : M world (Z * list char * option Z) :=
  match handle with
  | None => ret (-1, buffer, source)
  | Some hd =>
      let hs := (if valid (output_fd hd) then [output_fd hd] else [])
             ++ (if valid (error_fd hd) then [error_fd hd] else []) in
      let handleCount := Z.of_nat (length hs) in
      if handleCount =? 0 then ret (-1, buffer, source)
      else
        waitResult <- WaitForMultipleObjects (multi_wait_answer env)
                        hs timeout_ms ;;
        if waitResult =? WAIT_TIMEOUT then ret (0, buffer, source)
        else if (waitResult >=? WAIT_OBJECT_0)
                && (waitResult <? WAIT_OBJECT_0 + handleCount) then
          let index := waitResult - WAIT_OBJECT_0 in
          let h := nth (Z.to_nat index) hs 0 in
          let source := assign source (if h =? output_fd hd then 1 else 2) in
          (* try to read from the handle that has data *)
          r <- ReadFile (avail_readfile env) h buffer (buffer_size - 1) 0 ;;
          let '(success, bytesRead, buffer) := r in
          if success && (bytesRead >? 0) then
            buffer <- store buffer bytesRead NUL ;;
            ret (to_int bytesRead, buffer, source)
          else
            err <- GetLastError ;;
            if err =? ERROR_BROKEN_PIPE then ret (0, buffer, source)
            else ret (0, buffer, source)
        else if waitResult =? WAIT_FAILED then ret (-1, buffer, source)
        else ret (0, buffer, source)
  end.

Definition is_running (handle : option ProcessHandle) : M world Z :=
  match handle with
  | None => ret 0
  | Some h =>
      if hProcess h =? INVALID_HANDLE_VALUE then ret 0
      else
        r <- GetExitCodeProcess (hProcess h) ;;
        let '(ok, exitCode) := r in
        if ok then ret (if exitCode =? STILL_ACTIVE then 1 else 0)
        else ret 0
  end.

Definition write_to_process (o : writefile_outcome)
    (handle : option ProcessHandle) (data : list char) (length : Z)
  : M world Z :=
  match handle with
  | None => ret (-1)
  | Some h =>
      if input_fd h =? INVALID_HANDLE_VALUE then ret (-1)
      else
        r <- WriteFile o (input_fd h) data length ;;
        let '(success, bytesWritten) := r in
        if negb success then
          err <- GetLastError ;;
          if (err =? ERROR_NO_DATA) || (err =? ERROR_BROKEN_PIPE)
          then ret 0            (* pipe was closed *)
          else ret (-1)
        else
          FlushFileBuffers (input_fd h) ;;   (* flush the write *)
          ret (to_int bytesWritten)
  end.

(** [close_process]; [wait] is the result of the wait for the exit. *)
Definition close_process (wait : Z) (handle : option ProcessHandle)
  : M world unit :=
  match handle with
  | None => ret tt
  | Some h =>
      (* close pipe handles *)
      when (valid (input_fd h)) (CloseHandle (input_fd h)) ;;
      when (valid (output_fd h)) (CloseHandle (output_fd h)) ;;
      when (valid (error_fd h)) (CloseHandle (error_fd h)) ;;
      (* close process handle if we have it *)
      when (valid (hProcess h))
        (TerminateProcess (hProcess h) 0 ;;
         WaitForSingleObject wait (hProcess h) 5000 ;;   (* 5 second timeout *)
         CloseHandle (hProcess h)) ;;
      free
  end.

(** What the operating system answers during one [start_process]. *)
Record spawn_env : Type := mkSpawnEnv {
  pipe_stdin_ok  : bool;
  pipe_stdout_ok : bool;
  pipe_stderr_ok : bool;
  inherit_stdin_ok  : bool;
  inherit_stdout_ok : bool;
  inherit_stderr_ok : bool;
  cmdline_ok     : bool;
  process_answer : option positive;
  handle_ok      : bool
}.

(** [create_command_line_ex] with its allocation. *)
Definition create_command_line_ex (granted : bool)
    (cmd : list char) (args : list (list char)) : M world (option (list char)) :=
  ok <- malloc granted ;;
  ret (WinQuote.create_command_line_ex ok cmd args).

(** [a || b || c] over calls: the later ones are made only while the
    earlier ones are false. *)
Definition orelse (a b : M world bool) : M world bool :=
  x <- a ;; if x then ret true else b.

Definition start_process (env : spawn_env)
    (cmd : list char) (args : list (list char))
  : M world (option ProcessHandle) :=
  (* create pipes for stdin *)
  p1 <- CreatePipe (pipe_stdin_ok env) ;;
  match p1 with
  | None => ret None
  | Some (hChildStdinRd, hChildStdinWr) =>
  (* create pipes for stdout *)
  p2 <- CreatePipe (pipe_stdout_ok env) ;;
  match p2 with
  | None =>
      CloseHandle hChildStdinRd ;;
      CloseHandle hChildStdinWr ;;
      ret None
  | Some (hChildStdoutRd, hChildStdoutWr) =>
  (* create pipes for stderr *)
  p3 <- CreatePipe (pipe_stderr_ok env) ;;
  match p3 with
  | None =>
      CloseHandle hChildStdinRd ;;
      CloseHandle hChildStdinWr ;;
      CloseHandle hChildStdoutRd ;;
      CloseHandle hChildStdoutWr ;;
      ret None
  | Some (hChildStderrRd, hChildStderrWr) =>
  let close_all : M world unit :=
    CloseHandle hChildStdinRd ;;
    CloseHandle hChildStdinWr ;;
    CloseHandle hChildStdoutRd ;;
    CloseHandle hChildStdoutWr ;;
    CloseHandle hChildStderrRd ;;
    CloseHandle hChildStderrWr in
  (* the parent's ends are not inherited by the child *)
  failed <-
    orelse (b <- SetHandleInformation (inherit_stdin_ok env) hChildStdinWr ;;
            ret (negb b))
   (orelse (b <- SetHandleInformation (inherit_stdout_ok env) hChildStdoutRd ;;
            ret (negb b))
           (b <- SetHandleInformation (inherit_stderr_ok env) hChildStderrRd ;;
            ret (negb b))) ;;
  if (failed : bool) then
    close_all ;; ret None
  else
  (* create command line *)
  c <- create_command_line_ex (cmdline_ok env) cmd args ;;
  match c with
  | None => close_all ;; ret None
  | Some cmdline =>
  (* create the child process *)
  pi <- CreateProcess (process_answer env) cmdline ;;
  free ;;
  (* close handles we do not need in the parent *)
  CloseHandle hChildStdinRd ;;
  CloseHandle hChildStdoutWr ;;
  CloseHandle hChildStderrWr ;;
  match pi with
  | None =>
      CloseHandle hChildStdinWr ;;
      CloseHandle hChildStdoutRd ;;
      CloseHandle hChildStderrRd ;;
      ret None
  | Some piProcInfo =>
  (* close thread handle (we only need the process handle) *)
  CloseHandle (pi_hThread piProcInfo) ;;
  (* allocate and initialize the process handle *)
  handle <- malloc (handle_ok env) ;;
  if negb handle then
    CloseHandle hChildStdinWr ;;
    CloseHandle hChildStdoutRd ;;
    CloseHandle hChildStderrRd ;;
    CloseHandle (pi_hProcess piProcInfo) ;;
    ret None
  else
    ret (Some (mkHandle (pi_dwProcessId piProcInfo) (pi_hProcess piProcInfo)
                        hChildStdinWr hChildStdoutRd hChildStderrRd))
  end end end end end.

(** ** The environment and what is observed of a run *)

(** The process exits by itself. *)
Definition process_exits (h code : Z) (w : world) : world :=
  match processes w !! h with
  | Some Running => set_processes (fun p => <[h := Exited code]> p) w
  | _ => w
  end.

Inductive action : Type :=
| Probe
| ProcessExits (code : Z).

(** The results of the probes of a run. *)
Fixpoint observe (h : ProcessHandle) (acts : list action) (w : world)
  : list (option Z) :=
  match acts with
  | [] => []
  | Probe :: rest =>
      let r := is_running (Some h) w in
      returned r :: observe h rest (snd r)
  | ProcessExits code :: rest =>
      observe h rest (process_exits (hProcess h) code w)
  end.

(** The number of probes of a run. *)
Fixpoint probes (acts : list action) : nat :=
  match acts with
  | [] => 0
  | Probe :: rest => S (probes rest)
  | ProcessExits _ :: rest => probes rest
  end.

(** What the read of [read_from_handle] had to deliver: at once, or
    through the overlapped result. *)
Definition delivered (env : read_env) : list char :=
  match readfile_answer env with
  | ReadCompletes data => data
  | ReadFails _ =>
      match overlapped_answer env with
      | Some data => data
      | None => []
      end
  end.

(** How one [read_from_handle] went: the read was under way and the
    timeout elapsed; the pipe was closed; the read was under way and the
    wait failed; the read completed and its result could not be fetched. *)
Definition timed_out (env : read_env) : Prop :=
  readfile_answer env = ReadFails ERROR_IO_PENDING
  /\ wait_answer env = WAIT_TIMEOUT.

Definition end_of_stream (env : read_env) : Prop :=
  readfile_answer env = ReadFails ERROR_BROKEN_PIPE.

Definition wait_failed (env : read_env) : Prop :=
  readfile_answer env = ReadFails ERROR_IO_PENDING
  /\ wait_answer env = WAIT_FAILED.

Definition overlapped_failed (env : read_env) : Prop :=
  readfile_answer env = ReadFails ERROR_IO_PENDING
  /\ wait_answer env = WAIT_OBJECT_0
  /\ overlapped_answer env = None.

(** The read failed at once with an error that is neither a read under
    way nor a closed pipe. *)
Definition other_error (env : read_env) : bool :=
  match readfile_answer env with
  | ReadFails e =>
      negb (e =? ERROR_IO_PENDING) && negb (e =? ERROR_BROKEN_PIPE)
  | ReadCompletes _ => false
  end.

(** What the read of [read_available] had to deliver. *)
Definition avail_delivered (env : avail_env) : list char :=
  match avail_readfile env with
  | ReadCompletes data => data
  | ReadFails _ => []
  end.

(** What a probe of an open process handle answers, by the state of the
    process. *)
Definition probe_value (st : process_state) : Z :=
  match st with
  | Running => 1
  | Exited code => if to_dword code =? STILL_ACTIVE then 1 else 0
  end.

(** Every open handle is below the next one to be handed out. *)
Definition fresh_ok (w : world) : Prop :=
  forall h, h ∈ handles w -> h < next_handle w.

(** The handle of the [ReadFile] a trace ends with, when it ends with
    one. *)
Definition last_read (t : list event) : option Z :=
  match last t with
  | Some (EvReadFile h _ _) => Some h
  | _ => None
  end.

(** A process with no handle open. *)
Definition boot : world := mkWorld ∅ 4 ∅ 0 0 [].

End Win32.

(* ===================================================================== *)
(** * Inputs of the scenarios *)
(* ===================================================================== *)

Module Scenario.
Import CStr.

(** The argument of scenario C: [C:\path with space\]. *)
Definition scenario_C : list char :=
  lit "C:" ++ [BSLASH] ++ lit "path with space" ++ [BSLASH].

(** The argument made of [a], a double quote and [b]: a quote and no
    white space. *)
Definition quote_inside : list char := lit "a" ++ [DQUOTE] ++ lit "b".

(** Three arguments: one with blanks and a trailing backslash, one plain,
    one empty. *)
Definition sample_args : list (list char) := [scenario_C; lit "-v"; []].

(** The command line made of [prog] and these arguments. *)
Definition sample_line : list char :=
  default [] (WinQuote.create_command_line_ex true (lit "prog") sample_args).

(** POSIX: a spawn in which every system call succeeds; the child has
    identifier 100 and will exit by itself with status 0. *)
Definition posix_env : Posix.spawn_env :=
  Posix.mkSpawnEnv true true true (Posix.ForkInParent 100 (Some 0)) true true.

Definition posix_handle : Posix.ProcessHandle := Posix.mkHandle 100 4 5 7.

(** The world after that spawn from [Posix.boot]. *)
Definition posix_spawned : Posix.world :=
  snd (Posix.start_process posix_env (lit "cat") [lit "cat"] Posix.boot).


(** POSIX: the first [pipe] is granted, the second refused. *)
Definition posix_env_pipe2 : Posix.spawn_env :=
  Posix.mkSpawnEnv true false true (Posix.ForkInParent 100 (Some 0)) true true.

(** POSIX: the three pipes are granted and [fork] fails. *)
Definition posix_env_fork : Posix.spawn_env :=
  Posix.mkSpawnEnv true true true Posix.ForkFails true true.

(** A caller's buffer of two bytes holding [xy]. *)
Definition stale_buffer : list char := lit "xy".

(** POSIX: [poll] times out. *)
Definition poll_timeout : Posix.poll_answer := Posix.mkPoll 0 [0].

(** POSIX: [poll] reports data on the descriptor. *)
Definition poll_readable : Posix.poll_answer := Posix.mkPoll 1 [Posix.POLLIN].

(** POSIX: [poll] reports data on both descriptors. *)
Definition poll_both : Posix.poll_answer :=
  Posix.mkPoll 2 [Posix.POLLIN; Posix.POLLIN].

(** Windows: the wait is answered for the second handle and the read
    delivers one byte. *)
Definition win_avail_second : Win32.avail_env :=
  Win32.mkAvailEnv 1 (Win32.ReadCompletes (lit "a")).

(** Windows: the read is under way and the wait for it fails. *)
Definition win_wait_fails : Win32.read_env :=
  Win32.mkReadEnv true (Win32.ReadFails Win32.ERROR_IO_PENDING)
                  Win32.WAIT_FAILED None.

(** Windows: the read fails at once with error 5. *)
Definition win_read_denied : Win32.read_env :=
  Win32.mkReadEnv true (Win32.ReadFails 5) Win32.WAIT_OBJECT_0 None.

(** Windows: the read is under way and the wait for it times out. *)
Definition win_read_pending : Win32.read_env :=
  Win32.mkReadEnv true (Win32.ReadFails Win32.ERROR_IO_PENDING)
                  Win32.WAIT_TIMEOUT None.

(** Windows: the read completes at once with one byte. *)
Definition win_read_one : Win32.read_env :=
  Win32.mkReadEnv true (Win32.ReadCompletes (lit "a")) Win32.WAIT_OBJECT_0 None.


(** Windows: a spawn in which every call succeeds; the process has
    identifier 100. *)
Definition win_env : Win32.spawn_env :=
  Win32.mkSpawnEnv true true true true true true true (Some 100%positive) true.

Definition win_handle : Win32.ProcessHandle := Win32.mkHandle 100 10 5 6 8.

Definition win_spawned : Win32.world :=
  snd (Win32.start_process win_env (lit "cmd") [lit "/c"] Win32.boot).

End Scenario.

(* ===================================================================== *)
(** * Properties of the quoting *)
(* ===================================================================== *)

Section QuotingFacts.
Import CStr WinQuote.

Lemma is_nul_false (c : char) : c <> NUL -> is_nul c = false.
Proof. intros H. unfold is_nul. now apply Ascii.eqb_neq. Qed.

Lemma wf_cons (c : char) (s : list char) :
  wf (c :: s) <-> c <> NUL /\ wf s.
Proof. unfold wf. apply Forall_cons_iff. Qed.

Lemma wf_app (s t : list char) : wf (s ++ t) <-> wf s /\ wf t.
Proof. unfold wf. apply Forall_app. Qed.

Lemma wfb_wf (s : list char) : wfb s = true <-> wf s.
Proof.
  induction s as [|c s IH]; simpl.
  - split; [constructor | reflexivity].
  - rewrite wf_cons, andb_true_iff, IH, negb_true_iff.
    unfold is_nul. rewrite Ascii.eqb_neq. reflexivity.
Qed.

Lemma strlen_wf (s : list char) : wf s -> strlen s = length s.
Proof.
  induction s as [|c s IH]; simpl; [reflexivity|].
  rewrite wf_cons. intros [Hc Hs].
  rewrite (is_nul_false _ Hc), (IH Hs). reflexivity.
Qed.

Lemma strcpy_wf (s : list char) : wf s -> strcpy s = s.
Proof.
  induction s as [|c s IH]; simpl; [reflexivity|].
  rewrite wf_cons. intros [Hc Hs].
  rewrite (is_nul_false _ Hc), (IH Hs). reflexivity.
Qed.

(** [strchr] finds a character other than the terminator exactly when it
    occurs in the string. *)
Lemma strchr_In (s : list char) (c : char) :
  wf s -> c <> NUL -> (strchr s c <> None <-> In c s).
Proof.
  intros Hs Hc. induction s as [|x s IH]; simpl.
  - rewrite (is_nul_false _ Hc). tauto.
  - apply wf_cons in Hs as [Hx Hs]. specialize (IH Hs).
    destruct (Ascii.eqb_spec x c) as [->|Hne].
    + split; [auto | discriminate].
    + rewrite (is_nul_false _ Hx), IH. split; [auto | intros [?|?]; tauto].
Qed.

Lemma peek_nul_wf (s : list char) :
  wf s -> (is_nul (peek s) = true <-> s = []).
Proof.
  destruct s as [|c s]; simpl; [tauto|].
  rewrite wf_cons. intros [Hc _]. rewrite (is_nul_false _ Hc).
  split; discriminate.
Qed.

Lemma needs_quoting_cases (s : list char) :
  needs_quoting s = 1 \/ needs_quoting s = 0.
Proof. unfold needs_quoting. destruct (_ || _); auto. Qed.

Lemma needs_quoting_iff (s : list char) :
  wf s ->
  (needs_quoting s = 1 <->
   s = [] \/ In SPACE s \/ In TAB s \/ In LF s \/ In VT s).
Proof.
  intros Hs. unfold needs_quoting.
  rewrite <- (strchr_In s SPACE Hs), <- (strchr_In s TAB Hs),
          <- (strchr_In s LF Hs), <- (strchr_In s VT Hs) by discriminate.
  rewrite <- (peek_nul_wf s Hs).
  destruct (bool_decide_reflect (strchr s SPACE <> None));
  destruct (bool_decide_reflect (strchr s TAB <> None));
  destruct (bool_decide_reflect (strchr s LF <> None));
  destruct (bool_decide_reflect (strchr s VT <> None));
  destruct (is_nul (peek s)); simpl; split; intros H; try tauto;
    try discriminate.
  destruct H as [?|[?|[?|[?|?]]]]; tauto || discriminate.
Qed.

(** ** Backslash runs *)

Lemma count_backslashes_run (k n : nat) (rest : list char) :
  peek rest <> BSLASH ->
  count_backslashes (repeat BSLASH k ++ rest) n = ((n + k)%nat, rest).
Proof.
  intros Hrest. revert n. induction k as [|k IH]; intros n; simpl.
  - rewrite Nat.add_0_r. destruct rest as [|c rest]; [reflexivity|].
    simpl in *. destruct (Ascii.eqb_spec c BSLASH); [contradiction|reflexivity].
  - rewrite IH. f_equal. lia.
Qed.

(** Every string splits into its leading run and a rest that does not
    start with a backslash. *)
Lemma leading_run (s : list char) :
  exists k rest, s = repeat BSLASH k ++ rest /\ peek rest <> BSLASH.
Proof.
  induction s as [|c s (k & rest & -> & Hrest)].
  - exists 0%nat, []. split; [reflexivity | discriminate].
  - destruct (Ascii.eqb_spec c BSLASH) as [->|Hne].
    + exists (S k), rest. split; [reflexivity | assumption].
    + exists 0%nat, (c :: repeat BSLASH k ++ rest). split; [reflexivity | exact Hne].
Qed.

Lemma strlen_run_app (k : nat) (rest : list char) :
  strlen (repeat BSLASH k ++ rest) = (k + strlen rest)%nat.
Proof. induction k as [|k IH]; simpl; [reflexivity | now rewrite IH]. Qed.

Lemma wf_run (k : nat) : wf (repeat BSLASH k).
Proof. induction k as [|k IH]; simpl; constructor; [discriminate | exact IH]. Qed.

(** The loop of [quote_argument] computes the quoted body, for any fuel
    of at least the length of the string. *)
Lemma quote_loop_body (fuel : nat) :
  forall src dest : list char,
    wf src -> (strlen src <= fuel)%nat ->
    exists out, quoted_body src out /\
                quote_loop fuel src dest = Some (dest ++ out).
Proof.
  induction fuel as [|fuel IH]; intros src dest Hwf Hlen.
  - destruct src as [|c src].
    + exists []. split; [apply (qb_end 0) | simpl; now rewrite app_nil_r].
    + apply wf_cons in Hwf as [Hc _]. simpl in Hlen.
      rewrite (is_nul_false _ Hc) in Hlen. lia.
  - destruct (leading_run src) as (k & rest & -> & Hrest).
    apply wf_app in Hwf as [_ Hwf].
    rewrite strlen_run_app in Hlen.
    destruct rest as [|c rest].
    + (* the run reaches the end of the token *)
      exists (repeat BSLASH (2 * k)). rewrite app_nil_r. split; [apply qb_end|].
      destruct k as [|k]; [simpl; now rewrite app_nil_r|].
      change (quote_loop (S fuel) (repeat BSLASH (S k)) dest)
        with (let '(backslashes, src') :=
                count_backslashes (repeat BSLASH (S k)) 0 in
              if is_nul (peek src') then
                Some (dest ++ repeat BSLASH (backslashes * 2))
              else if Ascii.eqb (peek src') DQUOTE then
                quote_loop fuel (tl src')
                  (dest ++ repeat BSLASH (backslashes * 2) ++ [BSLASH; DQUOTE])
              else quote_loop fuel (tl src')
                     (dest ++ repeat BSLASH backslashes ++ [peek src'])).
      rewrite <- (app_nil_r (repeat BSLASH (S k))).
      rewrite count_backslashes_run by discriminate. simpl peek.
      cbn [is_nul]. simpl.
      now replace (k + S (k + 0))%nat with (S (k * 2))%nat by lia.
    + apply wf_cons in Hwf as [Hc Hwf]. simpl in Hrest, Hlen.
      rewrite (is_nul_false _ Hc) in Hlen.
      assert (Hstep : quote_loop (S fuel) (repeat BSLASH k ++ c :: rest) dest =
                if Ascii.eqb c DQUOTE then
                  quote_loop fuel rest
                    (dest ++ repeat BSLASH (k * 2) ++ [BSLASH; DQUOTE])
                else quote_loop fuel rest (dest ++ repeat BSLASH k ++ [c])).
      { cbn [quote_loop].
        assert (Hp : is_nul (peek (repeat BSLASH k ++ c :: rest)) = false).
        { destruct k; simpl; [now apply is_nul_false | reflexivity]. }
        rewrite Hp, count_backslashes_run by exact Hrest.
        simpl. rewrite (is_nul_false _ Hc). reflexivity. }
      rewrite Hstep.
      destruct (Ascii.eqb_spec c DQUOTE) as [->|Hq].
      * destruct (IH rest (dest ++ repeat BSLASH (k * 2) ++ [BSLASH; DQUOTE]) Hwf)
          as (out & Hout & ->); [lia|].
        exists (repeat BSLASH (2 * k) ++ BSLASH :: DQUOTE :: out).
        split; [now apply qb_quote|].
        f_equal. rewrite <- !app_assoc. simpl.
        now replace (k * 2)%nat with (2 * k)%nat by lia.
      * destruct (IH rest (dest ++ repeat BSLASH k ++ [c]) Hwf)
          as (out & Hout & ->); [lia|].
        exists (repeat BSLASH k ++ c :: out).
        split; [now apply qb_other|].
        f_equal. now rewrite <- !app_assoc.
Qed.

Lemma quote_argument_body (src : list char) :
  wf src ->
  exists out, quoted_body src out /\
              quote_argument src = Some (DQUOTE :: out ++ [DQUOTE]).
Proof.
  intros Hwf. unfold quote_argument.
  destruct (quote_loop_body (strlen src) src [DQUOTE] Hwf (le_n _))
    as (out & Hout & ->).
  exists out. split; [exact Hout | reflexivity].
Qed.

(** The segments of a token determine its quoted form. *)
Lemma quoted_body_head (s out : list char) :
  quoted_body s out ->
  forall k rest, s = repeat BSLASH k ++ rest -> peek rest <> BSLASH ->
    match rest with
    | [] => out = repeat BSLASH (2 * k)
    | c :: rest' =>
        exists out', quoted_body rest' out' /\
          out = if Ascii.eqb c DQUOTE
                then repeat BSLASH (2 * k) ++ BSLASH :: DQUOTE :: out'
                else repeat BSLASH k ++ c :: out'
    end.
Proof.
  assert (Hsplit : forall k k' (r r' : list char),
             repeat BSLASH k ++ r = repeat BSLASH k' ++ r' ->
             peek r <> BSLASH -> peek r' <> BSLASH -> k = k' /\ r = r').
  { induction k as [|k IHk]; intros [|k'] r r' Heq Hr Hr'; simpl in *.
    - auto.
    - subst r. simpl in Hr. congruence.
    - subst r'. simpl in Hr'. congruence.
    - injection Heq as Heq. destruct (IHk _ _ _ Heq Hr Hr'). auto. }
  intros Hq k rest Hs Hrest. destruct Hq as [k0|k0 r0 out0 Hq|k0 c0 r0 out0 Hb Hd Hq].
  - rewrite <- (app_nil_r (repeat BSLASH k0)) in Hs.
    destruct (Hsplit _ _ _ _ Hs) as [-> <-]; [discriminate | exact Hrest | reflexivity].
  - destruct (Hsplit _ _ _ _ Hs) as [-> <-]; [discriminate | exact Hrest |].
    exists out0. split; [exact Hq | reflexivity].
  - destruct (Hsplit _ _ _ _ Hs) as [-> <-]; [exact Hb | exact Hrest |].
    exists out0. split; [exact Hq|].
    destruct (Ascii.eqb_spec c0 DQUOTE); [contradiction | reflexivity].
Qed.

Lemma quoted_body_functional (s : list char) :
  forall out1 out2,
    quoted_body s out1 -> quoted_body s out2 -> out1 = out2.
Proof.
  remember (length s) as n eqn:Hn. revert s Hn.
  induction n as [n IH] using lt_wf_ind. intros s Hn out1 out2 H1 H2.
  destruct (leading_run s) as (k & rest & Hs & Hrest).
  pose proof (quoted_body_head _ _ H1 _ _ Hs Hrest) as E1.
  pose proof (quoted_body_head _ _ H2 _ _ Hs Hrest) as E2.
  destruct rest as [|c rest]; [congruence|].
  destruct E1 as (o1 & Hq1 & ->), E2 as (o2 & Hq2 & ->).
  assert (o1 = o2) as ->; [|reflexivity].
  apply (IH (length rest)) with (s := rest); auto.
  subst s n. rewrite length_app. simpl. lia.
Qed.

(** ** Splitting a quoted token *)

Import WinArgv.

Lemma odd_double (k : nat) : Nat.odd (2 * k) = false.
Proof. rewrite <- Nat.negb_even, Nat.even_mul. reflexivity. Qed.

Lemma odd_succ_double (k : nat) : Nat.odd (S (2 * k)) = true.
Proof. rewrite Nat.odd_succ, Nat.even_mul. reflexivity. Qed.

Lemma step_run (k n : nat) (cur : list char) (done : list (list char))
      (l : list char) :
  fold_left step (repeat BSLASH k ++ l) (mkPState Inside n true cur done) =
  fold_left step l (mkPState Inside (n + k) true cur done).
Proof.
  revert n. induction k as [|k IH]; intros n; cbn [repeat app fold_left].
  - now rewrite Nat.add_0_r.
  - change (step (mkPState Inside n true cur done) BSLASH)
      with (mkPState Inside (S n) true cur done).
    rewrite IH. do 2 f_equal. lia.
Qed.

Lemma step_plain_other (m : mode) (st : pstate) (c : char) :
  c <> BSLASH -> c <> DQUOTE -> in_quotes m = true ->
  step_plain m st c =
  mkPState m 0 true (st_cur st ++ repeat BSLASH (st_slashes st) ++ [c])
           (st_done st).
Proof.
  intros Hb Hd Hm. unfold step_plain.
  destruct (Ascii.eqb_spec c BSLASH); [contradiction|].
  destruct (Ascii.eqb_spec c DQUOTE); [contradiction|].
  rewrite Hm, andb_false_r, <- app_assoc. reflexivity.
Qed.

(** Inside a quoted part the splitter reads a quoted body back as the
    token it came from, and stops on the closing quote. *)
Lemma split_quoted_body (s out : list char) :
  quoted_body s out ->
  forall cur done,
    fold_left step (out ++ [DQUOTE]) (mkPState Inside 0 true cur done) =
    mkPState InsideQuote 0 true (cur ++ s) done.
Proof.
  induction 1 as [k|k rest out Hq IH|k c rest out Hb Hd Hq IH];
    intros cur done.
  - rewrite step_run, Nat.add_0_l. cbn [fold_left].
    unfold step, step_plain. cbn -[Nat.odd Nat.div2 Nat.mul].
    rewrite odd_double, Nat.div2_double. reflexivity.
  - replace (repeat BSLASH (2 * k) ++ BSLASH :: DQUOTE :: out)
      with (repeat BSLASH (S (2 * k)) ++ DQUOTE :: out)
      by (change (repeat BSLASH (S (2 * k)))
            with (BSLASH :: repeat BSLASH (2 * k));
          rewrite repeat_cons, <- app_assoc; reflexivity).
    rewrite <- app_assoc, step_run, Nat.add_0_l. cbn [fold_left app].
    unfold step at 2, step_plain. cbn -[Nat.odd Nat.div2 Nat.mul].
    rewrite odd_succ_double, Nat.div2_succ_double, IH.
    now rewrite <- !app_assoc.
  - rewrite <- app_assoc, step_run, Nat.add_0_l. cbn [fold_left app].
    unfold step at 2. cbn [st_mode].
    rewrite step_plain_other by auto. cbn [st_cur st_slashes st_done].
    rewrite IH. now rewrite <- !app_assoc.
Qed.

(** Parsing a quoted token gives back the token: [quote_argument] itself
    round-trips on every string. *)
Lemma parse_quote_argument (s : list char) :
  wf s -> exists q, quote_argument s = Some q /\ parse_args q = [s].
Proof.
  intros Hwf. destruct (quote_argument_body s Hwf) as (out & Hout & Hq).
  exists (DQUOTE :: out ++ [DQUOTE]). split; [exact Hq|].
  unfold parse_args. cbn [fold_left]. unfold step at 2, step_plain.
  cbn. rewrite (split_quoted_body _ _ Hout).
  unfold finish. cbn. now rewrite app_nil_r.
Qed.

End QuotingFacts.

(* ===================================================================== *)
(** * The claims about the quoting *)
(* ===================================================================== *)

Section QuotingClaims.
Import CStr WinQuote WinArgv Scenario.

(** The loop of [quote_argument] never runs out of the fuel
    [quote_argument] gives it, whatever the bytes of the string. *)
Lemma count_backslashes_strlen (src : list char) (n : nat) :
  strlen src =
  (fst (count_backslashes src n) - n + strlen (snd (count_backslashes src n)))%nat
  /\ (n <= fst (count_backslashes src n))%nat.
Proof.
  revert n. induction src as [|c src IH]; intros n; simpl.
  - lia.
  - destruct (Ascii.eqb_spec c BSLASH) as [->|Hne].
    + destruct (IH (S n)) as [E L]. simpl. lia.
    + simpl. lia.
Qed.

Lemma quote_loop_total (fuel : nat) :
  forall src dest : list char,
    (strlen src <= fuel)%nat -> is_Some (quote_loop fuel src dest).
Proof.
  induction fuel as [|fuel IH]; intros src dest Hlen.
  - destruct src as [|c src]; simpl in *; [eauto|].
    destruct (is_nul c); [eauto | lia].
  - cbn [quote_loop]. destruct (is_nul (peek src)); [eauto|].
    destruct (count_backslashes_strlen src 0) as [E _].
    destruct (count_backslashes src 0) as [k src']. simpl in E.
    destruct src' as [|c src']; simpl; [eauto|].
    simpl in E. destruct (is_nul c) eqn:Hc; [eauto|].
    destruct (Ascii.eqb c DQUOTE); apply IH; lia.
Qed.

Lemma quote_argument_total (src : list char) : is_Some (quote_argument src).
Proof.
  unfold quote_argument.
  destruct (quote_loop_total (strlen src) src [DQUOTE] (le_n _)) as [d ->].
  simpl. eauto.
Qed.

Lemma emit_args_total (args : list (list char)) :
  forall cmdline, is_Some (emit_args args cmdline).
Proof.
  induction args as [|a args IH]; intros cmdline; simpl; [eauto|].
  unfold emit_token.
  destruct (needs_quoting a =? 1).
  - destruct (quote_argument_total a) as [q ->]. simpl. apply IH.
  - simpl. apply IH.
Qed.

(** [create_command_line_ex] returns a command line whenever its
    allocation succeeds. *)
Lemma create_command_line_ex_total (cmd : list char) (args : list (list char)) :
  is_Some (create_command_line_ex true cmd args).
Proof.
  unfold create_command_line_ex, emit_token. simpl.
  destruct (needs_quoting cmd =? 1).
  - destruct (quote_argument_total cmd) as [q ->]. simpl. apply emit_args_total.
  - simpl. apply emit_args_total.
Qed.

(** The command line, with its terminator, fits the bytes
    [create_command_line_ex] reserves for it: the stores of
    [quote_argument] and [strcpy] stay inside the allocation. *)
Lemma quoted_body_length (s out : list char) :
  quoted_body s out -> (length out <= 2 * length s)%nat.
Proof.
  induction 1 as [k|k rest out Hq IH|k c rest out Hb Hd Hq IH];
    repeat (rewrite ?length_app, ?repeat_length; cbn [length]); lia.
Qed.

Lemma emit_token_fits (tok t : list char) :
  wf tok -> emit_token tok = Some t ->
  Z.of_nat (length t) + 1 <= token_reserve tok.
Proof.
  intros Hwf. unfold emit_token, token_reserve. rewrite (strlen_wf _ Hwf).
  destruct (needs_quoting tok =? 1).
  - destruct (quote_argument_body tok Hwf) as (out & Hout & ->).
    intros [= <-]. pose proof (quoted_body_length _ _ Hout).
    cbn [length]. rewrite length_app. cbn [length]. lia.
  - intros [= <-]. rewrite (strcpy_wf _ Hwf). lia.
Qed.

Lemma emit_args_fits (args : list (list char)) :
  Forall wf args ->
  forall (cmdline r : list char) (reserved : Z),
    Z.of_nat (length cmdline) + 1 <= reserved ->
    emit_args args cmdline = Some r ->
    Z.of_nat (length r) + 1
    <= fold_left (fun length arg => length + 1 + token_reserve arg)
                 args reserved.
Proof.
  induction 1 as [|a args Ha Hargs IH]; intros cmdline r reserved Hc;
    cbn [emit_args fold_left].
  - intros [= <-]. exact Hc.
  - destruct (emit_token a) as [t|] eqn:Ht; [|discriminate]. cbn.
    apply IH. pose proof (emit_token_fits a t Ha Ht).
    rewrite length_app. cbn [length]. lia.
Qed.

Lemma create_command_line_ex_fits (cmd : list char) (args : list (list char))
      (cmdline : list char) :
  wf cmd -> Forall wf args ->
  create_command_line_ex true cmd args = Some cmdline ->
  Z.of_nat (length cmdline) + 1 <= reserve_sum cmd args.
Proof.
  intros Hcmd Hargs. unfold create_command_line_ex, reserve_sum. cbn [negb].
  destruct (emit_token cmd) as [c|] eqn:Hc; [|discriminate]. cbn.
  intros Hrun. pose proof (emit_token_fits cmd c Hcmd Hc).
  exact (emit_args_fits args Hargs c cmdline (token_reserve cmd)
           ltac:(lia) Hrun).
Qed.

(** The first pass without overflow: while the sum stays in the range of
    an [int], [length] is the sum. *)
Lemma int_of_small (n : Z) : - 2 ^ 31 <= n < 2 ^ 31 -> int_of n = n.
Proof. intros H. unfold int_of. rewrite Z.mod_small by lia. lia. Qed.

Lemma token_reserve_pos (tok : list char) : 1 <= token_reserve tok.
Proof. unfold token_reserve. destruct (needs_quoting tok =? 1); lia. Qed.

Lemma reserve_fold_mono (args : list (list char)) :
  forall n, n <= fold_left (fun n arg => n + 1 + token_reserve arg) args n.
Proof.
  induction args as [|a args IH]; intros n; cbn [fold_left]; [lia|].
  pose proof (IH (n + 1 + token_reserve a)).
  pose proof (token_reserve_pos a). lia.
Qed.

Lemma length_fold_exact (args : list (list char)) :
  forall n,
    0 <= n ->
    fold_left (fun n arg => n + 1 + token_reserve arg) args n < 2 ^ 31 ->
    fold_left (fun length arg =>
                 int_of (int_of (length + 1) + token_reserve arg)) args n
    = fold_left (fun n arg => n + 1 + token_reserve arg) args n.
Proof.
  induction args as [|a args IH]; intros n Hn Hsum; cbn [fold_left];
    [reflexivity|].
  cbn [fold_left] in Hsum.
  pose proof (reserve_fold_mono args (n + 1 + token_reserve a)).
  pose proof (token_reserve_pos a).
  rewrite (int_of_small (n + 1)) by lia.
  rewrite (int_of_small (n + 1 + token_reserve a)) by lia.
  apply IH; [lia | exact Hsum].
Qed.

Lemma cmdline_length_exact (cmd : list char) (args : list (list char)) :
  reserve_sum cmd args < 2 ^ 31 ->
  cmdline_length cmd args = reserve_sum cmd args.
Proof.
  unfold cmdline_length, reserve_sum. intros Hsum.
  pose proof (reserve_fold_mono args (token_reserve cmd)).
  pose proof (token_reserve_pos cmd).
  rewrite Z.add_0_l, int_of_small by lia.
  apply length_fold_exact; [lia | exact Hsum].
Qed.

Lemma cmdline_alloc_exact (cmd : list char) (args : list (list char)) :
  reserve_sum cmd args + 1 < 2 ^ 31 ->
  cmdline_alloc cmd args = reserve_sum cmd args + 1.
Proof.
  intros Hsum. unfold cmdline_alloc.
  rewrite cmdline_length_exact by lia.
  pose proof (reserve_fold_mono args (token_reserve cmd)).
  pose proof (token_reserve_pos cmd).
  unfold reserve_sum in *.
  rewrite int_of_small by lia. apply Z.mod_small. lia.
Qed.

(** C1.  For every token string [s] (a C string: no terminator inside),
    [needs_quoting] answers 1 exactly when [s] is empty or contains a
    space, a tab, a newline or a vertical tab, and 0 otherwise;
    [quote_argument] emits the token between double quotes, each run of
    [k] backslashes followed by a quote as [2k] backslashes and an
    escaped quote, a run of [k] backslashes at the end as [2k]
    backslashes, everything else verbatim ([quoted_body]); and the token
    of scenario C ends in a doubled backslash before the closing quote. *)
Theorem quoting_bit_exact (s : list char) :
  wf s ->
  (needs_quoting s = 1 <->
     s = [] \/ In SPACE s \/ In TAB s \/ In LF s \/ In VT s)
  /\ (needs_quoting s <> 1 -> needs_quoting s = 0)
  /\ (exists out, quoted_body s out /\
                  quote_argument s = Some (DQUOTE :: out ++ [DQUOTE]))
  /\ needs_quoting scenario_C = 1
  /\ quote_argument scenario_C =
       Some (DQUOTE :: scenario_C ++ [BSLASH; DQUOTE]).
Proof.
  intros Hwf. split; [|split; [|split; [|split]]].
  - now apply needs_quoting_iff.
  - destruct (needs_quoting_cases s); tauto.
  - now apply quote_argument_body.
  - reflexivity.
  - reflexivity.
Qed.

(** The token of scenario C is a C string and has a quoted form. *)
Lemma quoting_bit_exact_witness :
  wf scenario_C /\
  exists out, quoted_body scenario_C out /\
              quote_argument scenario_C = Some (DQUOTE :: out ++ [DQUOTE]).
Proof.
  assert (H : wf scenario_C) by (apply wfb_wf; reflexivity).
  split; [exact H|].
  exact (proj1 (proj2 (proj2 (quoting_bit_exact scenario_C H)))).
Defined.

(** C8, the failing input.  The argument [quote_inside] contains no white space,
    so [needs_quoting] is 0 and [create_command_line_ex] copies it
    verbatim; the splitting rule then takes its quote for the start of a
    quoted part and yields [ab]. *)
Theorem unquoted_quote_is_lost :
  wf quote_inside
  /\ needs_quoting quote_inside = 0
  /\ create_command_line_ex true (lit "prog") [quote_inside] =
       Some (lit "prog " ++ quote_inside)
  /\ split_command_line (lit "prog " ++ quote_inside) =
       [lit "prog"; lit "ab"]
  /\ lit "ab" <> quote_inside.
Proof.
  split; [apply wfb_wf; reflexivity|].
  repeat split; try reflexivity. discriminate.
Qed.

End QuotingClaims.

(* ===================================================================== *)
(** * The claims about the handle operations *)
(* ===================================================================== *)

Section NullHandle.
Import Exec.

(** C10.  Every public operation is total on the null handle, in both
    backends: [close_process] does nothing, [is_running] returns 0, the
    write and the three reads return -1; no system call is made and
    neither the buffer nor [*source] is touched. *)
Theorem null_handle_total :
  ( (forall w, Posix.close_process None w = (Returns tt, w))
    /\ (forall w, Posix.is_running None w = (Returns 0, w))
    /\ (forall script data length w,
          Posix.write_to_process script None data length w = (Returns (-1), w))
    /\ (forall a o buffer size ms w,
          Posix.read_from_output a o None buffer size ms w
          = (Returns (-1, buffer), w))
    /\ (forall a o buffer size ms w,
          Posix.read_from_error a o None buffer size ms w
          = (Returns (-1, buffer), w))
    /\ (forall a o buffer size ms source w,
          Posix.read_available a o None buffer size ms source w
          = (Returns (-1, buffer, source), w)) )
  /\
  ( (forall wait w, Win32.close_process wait None w = (Returns tt, w))
    /\ (forall w, Win32.is_running None w = (Returns 0, w))
    /\ (forall o data length w,
          Win32.write_to_process o None data length w = (Returns (-1), w))
    /\ (forall env buffer size ms w,
          Win32.read_from_output env None buffer size ms w
          = (Returns (-1, buffer), w))
    /\ (forall env buffer size ms w,
          Win32.read_from_error env None buffer size ms w
          = (Returns (-1, buffer), w))
    /\ (forall env buffer size ms source w,
          Win32.read_available env None buffer size ms source w
          = (Returns (-1, buffer, source), w)) ).
Proof. repeat split. Qed.

End NullHandle.

Section Teardown.
Import Exec.

Lemma geb_true (x : Z) : 0 <= x -> (x >=? 0) = true.
Proof. intros H. apply Z.geb_le. lia. Qed.

Lemma win_valid_true (h : Z) :
  h <> Win32.INVALID_HANDLE_VALUE -> Win32.valid h = true.
Proof.
  intros H. unfold Win32.valid. apply negb_true_iff. now apply Z.eqb_neq.
Qed.

Lemma removed_not_elem (s : gset Z) (x : Z) : x ∉ s ∖ {[x]}.
Proof. rewrite elem_of_difference, elem_of_singleton. tauto. Qed.

Lemma wnohang_clear : negb (Z.land 0 Posix.WNOHANG =? 0) = false.
Proof. reflexivity. Qed.


(** C7.  [close_process] first closes the three endpoints and then
    reclaims the process.  POSIX: the next call is a [waitpid] without
    [WNOHANG] and nothing else is done to the child; when the child
    never exits the call does not return.  Windows: [TerminateProcess],
    then a wait of 5000 ms, then the process handle is closed, whatever
    the wait answered. *)
Theorem close_process_order :
  (forall (h : Posix.ProcessHandle) (w : Posix.world),
      0 <= Posix.input_fd h -> 0 <= Posix.output_fd h ->
      0 <= Posix.error_fd h ->
      let r := Posix.close_process (Some h) w in
      exists rest,
        Posix.trace (snd r) =
          Posix.trace w ++
          [Posix.EvClose (Posix.input_fd h);
           Posix.EvClose (Posix.output_fd h);
           Posix.EvClose (Posix.error_fd h)] ++ rest
        /\ match Posix.children w !! Posix.pid h with
           | Some (Posix.Running None) =>
               fst r = NoReturn
               /\ rest = [Posix.EvWaitpidBlocked (Posix.pid h)]
               /\ Posix.children (snd r) = Posix.children w
           | Some _ =>
               fst r = Returns tt
               /\ rest = [Posix.EvWaitpid (Posix.pid h) 0 (Posix.pid h);
                          Posix.EvFree]
               /\ Posix.children (snd r)
                  = delete (Posix.pid h) (Posix.children w)
           | None =>
               fst r = Returns tt
               /\ rest = [Posix.EvWaitpid (Posix.pid h) 0 (-1); Posix.EvFree]
               /\ Posix.children (snd r) = Posix.children w
           end)
  /\
  (forall (wait : Z) (h : Win32.ProcessHandle) (w : Win32.world),
      Win32.input_fd h <> Win32.INVALID_HANDLE_VALUE ->
      Win32.output_fd h <> Win32.INVALID_HANDLE_VALUE ->
      Win32.error_fd h <> Win32.INVALID_HANDLE_VALUE ->
      Win32.hProcess h <> Win32.INVALID_HANDLE_VALUE ->
      let r := Win32.close_process wait (Some h) w in
      fst r = Returns tt
      /\ Win32.trace (snd r) =
           Win32.trace w ++
           [Win32.EvCloseHandle (Win32.input_fd h);
            Win32.EvCloseHandle (Win32.output_fd h);
            Win32.EvCloseHandle (Win32.error_fd h);
            Win32.EvTerminateProcess (Win32.hProcess h) 0;
            Win32.EvWaitForSingleObject (Win32.hProcess h) 5000 wait;
            Win32.EvCloseHandle (Win32.hProcess h);
            Win32.EvFree]
      /\ Win32.hProcess h ∉ Win32.handles (snd r)).
Proof.
  split.
  - intros h w Hi Ho He. cbn zeta.
    unfold Posix.close_process, Posix.when.
    rewrite !geb_true by assumption.
    unfold bind, Posix.close, Posix.waitpid, Posix.free.
    rewrite wnohang_clear. cbn.
    destruct (Posix.children w !! Posix.pid h) as [[[st|]|st]|] eqn:Hc; cbn;
      eexists; (split; [rewrite <- !app_assoc; reflexivity|]); auto.
  - intros wait h w Hi Ho He Hp. cbn zeta.
    unfold Win32.close_process, Win32.when.
    rewrite !win_valid_true by assumption.
    unfold bind, Win32.CloseHandle, Win32.TerminateProcess,
      Win32.WaitForSingleObject, Win32.free. cbn.
    split; [reflexivity|]. split.
    + destruct (Win32.processes w !! Win32.hProcess h) as [[|c]|]; cbn;
        rewrite <- !app_assoc; reflexivity.
    + destruct (Win32.processes w !! Win32.hProcess h) as [[|c]|]; cbn;
        apply removed_not_elem.
Qed.

End Teardown.

Section Liveness.
Import Exec.

(** ** POSIX: what one probe does, by the state of the child *)






(** ** Windows: what one probe does *)

Lemma win_probe (h : Win32.ProcessHandle) (w : Win32.world)
      (st : Win32.process_state) :
  Win32.hProcess h <> Win32.INVALID_HANDLE_VALUE ->
  Win32.hProcess h ∈ Win32.handles w ->
  Win32.processes w !! Win32.hProcess h = Some st ->
  Win32.is_running (Some h) w =
  (Returns (Win32.probe_value st),
   Win32.record (Win32.EvGetExitCodeProcess (Win32.hProcess h)) w).
Proof.
  intros Hv Hin Hst. unfold Win32.is_running.
  replace (Win32.hProcess h =? Win32.INVALID_HANDLE_VALUE) with false
    by (symmetry; now apply Z.eqb_neq).
  unfold bind, Win32.GetExitCodeProcess.
  rewrite (bool_decide_eq_true_2 _ Hin), Hst.
  destruct st as [|code]; cbn; [reflexivity|].
  destruct (to_dword code =? Win32.STILL_ACTIVE); reflexivity.
Qed.




(** ** Every probe of a run *)








End Liveness.

Section ProbeEffects.
Import Exec Scenario.



End ProbeEffects.

Section Witnesses.
Import Exec Scenario.

(** The worlds of the scenarios: what the spawns left behind. *)
Lemma posix_spawned_child :
  Posix.children posix_spawned !! Posix.pid posix_handle
  = Some (Posix.Running (Some 0)).
Proof. vm_compute. reflexivity. Defined.




(** Teardown of the two spawned handles. *)
Lemma close_process_order_witness :
  fst (Posix.close_process (Some posix_handle) posix_spawned) = Returns tt
  /\ fst (Win32.close_process Win32.WAIT_TIMEOUT (Some win_handle) win_spawned)
     = Returns tt.
Proof.
  split.
  - destruct (proj1 close_process_order posix_handle posix_spawned)
      as (rest & _ & H); [cbn; lia | cbn; lia | cbn; lia |].
    rewrite posix_spawned_child in H. exact (proj1 H).
  - refine (proj1 (proj2 close_process_order Win32.WAIT_TIMEOUT win_handle
                     win_spawned _ _ _ _)); discriminate.
Defined.




End Witnesses.

Section SpawnFailure.
Import CStr Exec Scenario.

#[local] Arguments WinQuote.create_command_line_ex : simpl never.

(** Equations between sets of descriptors built from fresh ones. *)
Ltac fresh_set Hfresh :=
  apply set_eq; intros x;
  rewrite ?elem_of_difference, ?elem_of_union, ?elem_of_singleton;
  match goal with
  | |- _ <-> x ∈ ?S =>
      let E := fresh "E" in
      destruct (decide (x ∈ S)) as [Hin|Hout];
      [ pose proof (Hfresh x Hin); assert (E : x ∈ S <-> True) by tauto
      | assert (E : x ∈ S <-> False) by tauto ];
      rewrite E; lia
  | |- _ <-> _ \/ x ∈ ?S =>
      let E := fresh "E" in
      destruct (decide (x ∈ S)) as [Hin|Hout];
      [ pose proof (Hfresh x Hin); assert (E : x ∈ S <-> True) by tauto
      | assert (E : x ∈ S <-> False) by tauto ];
      rewrite E; lia
  end.

(** The Windows [start_process] releases what it took on every failure,
    and a handle it returns owns exactly the four handles left open. *)
Lemma win_start_process_atomic (env : Win32.spawn_env)
      (cmd : list char) (args : list (list char)) (w : Win32.world) :
  Win32.fresh_ok w ->
  let r := Win32.start_process env cmd args w in
  match fst r with
  | Returns None =>
      Win32.handles (snd r) = Win32.handles w
      /\ Win32.heap (snd r) = Win32.heap w
  | Returns (Some h) =>
      Win32.handles (snd r)
      = {[Win32.input_fd h; Win32.output_fd h; Win32.error_fd h;
          Win32.hProcess h]} ∪ Win32.handles w
      /\ Win32.heap (snd r) = S (Win32.heap w)
  | _ => False
  end.
Proof.
  intros Hfresh. destruct env as [p1 p2 p3 i1 i2 i3 c pa hm].
  destruct p1;
    [destruct p2;
     [destruct p3;
      [destruct i1;
       [destruct i2;
        [destruct i3;
         [destruct c; [destruct pa as [id|]; [destruct hm|]|]|]|]|]|]|]|];
    cbn zeta;
    unfold Win32.start_process, bind, Win32.CreatePipe, Win32.orelse,
      Win32.create_command_line_ex;
    cbn;
    try (destruct (create_command_line_ex_total cmd args) as [cl Hcl];
         rewrite Hcl; cbn);
    try (unfold WinQuote.create_command_line_ex; cbn);
    (split; [fresh_set Hfresh | reflexivity]).
Qed.

(** The POSIX [start_process], case by case: what it returns and which
    descriptors it leaves open.  A refused second or third pipe and a
    failed [fork] return the null pointer with the descriptors of the pipes
    made so far still open; a refused allocation of the handle closes the
    three descriptors the parent kept. *)
Lemma posix_start_process_cases (env : Posix.spawn_env)
      (cmd : list char) (args : list (list char)) (w : Posix.world) :
  Posix.fresh_ok w ->
  let r := Posix.start_process env cmd args w in
  let n := Posix.next_fd w in
  if negb (Posix.pipe_stdin_ok env) then
    fst r = Returns None /\ Posix.fds (snd r) = Posix.fds w
  else if negb (Posix.pipe_stdout_ok env) then
    fst r = Returns None /\ Posix.fds (snd r) = {[n; n + 1]} ∪ Posix.fds w
  else if negb (Posix.pipe_stderr_ok env) then
    fst r = Returns None
    /\ Posix.fds (snd r) = {[n; n + 1; n + 2; n + 3]} ∪ Posix.fds w
  else
    match Posix.fork_answer env with
    | Posix.ForkFails =>
        fst r = Returns None
        /\ Posix.fds (snd r)
           = {[n; n + 1; n + 2; n + 3; n + 4; n + 5]} ∪ Posix.fds w
    | Posix.ForkInChild => fst r = NoReturn
    | Posix.ForkInParent child _ =>
        if negb (Posix.malloc_ok env) then
          fst r = Returns None /\ Posix.fds (snd r) = Posix.fds w
          /\ Posix.heap (snd r) = Posix.heap w
        else
          (exists h, fst r = Returns (Some h)
                     /\ Posix.pid h = Z.pos child
                     /\ Posix.input_fd h = n + 1
                     /\ Posix.output_fd h = n + 2
                     /\ Posix.error_fd h = n + 4)
          /\ Posix.fds (snd r) = {[n + 1; n + 2; n + 4]} ∪ Posix.fds w
          /\ Posix.heap (snd r) = S (Posix.heap w)
    end.
Proof.
  intros Hfresh. destruct env as [p1 p2 p3 f e m].
  destruct p1;
    [destruct p2;
     [destruct p3;
      [destruct f as [| |child fate]; [| destruct e | destruct m] |]|]|];
    cbn zeta;
    unfold Posix.start_process, bind, Posix.pipe, Posix.fork;
    cbn;
    try reflexivity;
    (split; [first [reflexivity
                   | eexists; split; [reflexivity|]; cbn; repeat split; lia]|]);
    try (split; [|reflexivity]);
    fresh_set Hfresh.
Qed.

(** A handle returned by the POSIX [start_process] has the identifier of a
    running child and three valid descriptors. *)
Lemma posix_spawned_handle (env : Posix.spawn_env)
      (cmd : list char) (args : list (list char))
      (w w' : Posix.world) (h : Posix.ProcessHandle) :
  0 <= Posix.next_fd w ->
  Posix.start_process env cmd args w = (Returns (Some h), w') ->
  0 < Posix.pid h
  /\ 0 <= Posix.input_fd h /\ 0 <= Posix.output_fd h
  /\ 0 <= Posix.error_fd h
  /\ exists fate,
      Posix.children w' !! Posix.pid h = Some (Posix.Running fate).
Proof.
  intros Hn. destruct env as [p1 p2 p3 f e m].
  destruct p1;
    [destruct p2;
     [destruct p3;
      [destruct f as [| |child fate]; [| destruct e | destruct m] |]|]|];
    unfold Posix.start_process, bind, Posix.pipe, Posix.fork;
    cbn; try discriminate.
  intros [= <- <-]. cbn. repeat split; try lia.
  exists fate. apply lookup_insert_eq.
Qed.

(** A handle returned by the Windows [start_process] has four valid
    handles, the process handle open and its process running. *)
Lemma win_spawned_handle (env : Win32.spawn_env)
      (cmd : list char) (args : list (list char))
      (w w' : Win32.world) (h : Win32.ProcessHandle) :
  0 < Win32.next_handle w ->
  Win32.start_process env cmd args w = (Returns (Some h), w') ->
  Win32.input_fd h <> Win32.INVALID_HANDLE_VALUE
  /\ Win32.output_fd h <> Win32.INVALID_HANDLE_VALUE
  /\ Win32.error_fd h <> Win32.INVALID_HANDLE_VALUE
  /\ Win32.hProcess h <> Win32.INVALID_HANDLE_VALUE
  /\ Win32.hProcess h ∈ Win32.handles w'
  /\ Win32.processes w' !! Win32.hProcess h = Some Win32.Running.
Proof.
  intros Hn. destruct env as [p1 p2 p3 i1 i2 i3 c pa hm].
  destruct p1;
    [destruct p2;
     [destruct p3;
      [destruct i1;
       [destruct i2;
        [destruct i3;
         [destruct c; [destruct pa as [id|]; [destruct hm|]|]|]|]|]|]|]|];
    unfold Win32.start_process, bind, Win32.CreatePipe, Win32.orelse,
      Win32.create_command_line_ex;
    cbn;
    try (destruct (create_command_line_ex_total cmd args) as [cl Hcl];
         rewrite Hcl; cbn);
    try (unfold WinQuote.create_command_line_ex; cbn);
    try discriminate.
  intros [= <- <-]. cbn. unfold Win32.INVALID_HANDLE_VALUE.
  repeat split; try lia.
  - rewrite !elem_of_difference, !elem_of_union, !elem_of_singleton. lia.
  - apply lookup_insert_eq.
Qed.

(** C2, the failing inputs.  From a process with descriptors 0, 1 and 2
    open: when the second [pipe] is refused, [start_process] returns the
    null pointer without a single [close], and descriptors 3 and 4 of the
    first pipe stay open; when [fork] fails the six descriptors 3 to 8
    stay open. *)
Theorem posix_start_process_leaks :
  (let r := Posix.start_process posix_env_pipe2 (lit "cat") [lit "cat"]
              Posix.boot in
   fst r = Returns None
   /\ Posix.trace (snd r)
      = [Posix.EvPipe (Some (3, 4)); Posix.EvPipe None; Posix.EvPerror "pipe"]
   /\ (3 ∉ Posix.fds Posix.boot) /\ (4 ∉ Posix.fds Posix.boot)
   /\ (3 ∈ Posix.fds (snd r)) /\ (4 ∈ Posix.fds (snd r)))
  /\
  (let r := Posix.start_process posix_env_fork (lit "cat") [lit "cat"]
              Posix.boot in
   fst r = Returns None
   /\ Posix.trace (snd r)
      = [Posix.EvPipe (Some (3, 4)); Posix.EvPipe (Some (5, 6));
         Posix.EvPipe (Some (7, 8)); Posix.EvFork (-1); Posix.EvPerror "fork"]
   /\ elements (Posix.fds (snd r) ∖ Posix.fds Posix.boot)
        ≡ₚ [3; 4; 5; 6; 7; 8]).
Proof.
  split; cbn zeta.
  - split; [reflexivity|]. split; [reflexivity|].
    repeat split; apply (bool_decide_unpack _); vm_compute; exact I.
  - split; [reflexivity|]. split; [reflexivity|].
    apply (bool_decide_unpack _). vm_compute. exact I.
Qed.

End SpawnFailure.

Section Writer.
Import CStr Exec Scenario.

Lemma to_int_small (x : Z) : 0 <= x <= INT_MAX -> to_int x = x.
Proof.
  unfold to_int, INT_MAX. intros H.
  rewrite Z.mod_small by lia. lia.
Qed.

Lemma to_dword_small (x : Z) : 0 <= x <= INT_MAX -> to_dword x = x.
Proof. unfold to_dword, INT_MAX. intros H. apply Z.mod_small. lia. Qed.

Lemma written_to_app (fd : Z) (t1 t2 : list Posix.event) :
  Posix.written_to fd (t1 ++ t2)
  = Posix.written_to fd t1 ++ Posix.written_to fd t2.
Proof.
  induction t1 as [|e t1 IH]; [reflexivity|].
  destruct e; cbn; try exact IH.
  destruct (_ =? _); [rewrite IH; apply app_assoc | exact IH].
Qed.

(** The loop of the POSIX [write_to_process]: it is left by [return -1]
    only after a failure other than [EINTR], and by its condition only
    with the whole buffer written, in order. *)
Lemma write_loop_spec (h : Posix.ProcessHandle) (data : list char)
      (script : list Posix.write_outcome) :
  forall (total : Z) (w w' : Posix.world) res,
    0 <= total <= Z.of_nat (length data) ->
    Posix.write_loop script h data (Z.of_nat (length data)) total w
    = (res, w') ->
    exists evs,
      Posix.trace w' = Posix.trace w ++ evs
      /\ match res with
         | Returns (Posix.LoopDone t) =>
             t = Z.of_nat (length data)
             /\ Posix.written_to (Posix.input_fd h) evs
                = drop (Z.to_nat total) data
         | Returns (Posix.ReturnNow v) =>
             v = -1 /\ existsb Posix.hard script = true
         | NoReturn => True
         | Undefined => False
         end.
Proof.
  induction script as [|o script IH]; intros total w w' res Ht; cbn [Posix.write_loop].
  - destruct (Z.ltb_spec total (Z.of_nat (length data))) as [Hlt|Hge].
    + intros [= <- <-]. exists []. now rewrite app_nil_r.
    + intros [= <- <-]. exists []. rewrite app_nil_r. split; [reflexivity|].
      split; [lia|]. cbn. symmetry. apply drop_ge. lia.
  - destruct (Z.ltb_spec total (Z.of_nat (length data))) as [Hlt|Hge].
    2:{ intros [= <- <-]. exists []. rewrite app_nil_r. split; [reflexivity|].
        split; [lia|]. cbn. symmetry. apply drop_ge. lia. }
    unfold bind at 1. destruct o as [e|n]; cbn [Posix.write].
    + replace (-1 <? 0) with true by reflexivity.
      destruct (e =? Posix.EINTR) eqn:He.
      * intros Hrun. destruct (IH _ _ _ _ Ht Hrun) as (evs & Htr & Hres).
        eexists (_ :: evs). split.
        { rewrite Htr. cbn. rewrite <- app_assoc. reflexivity. }
        destruct res as [[v|t]| |]; [| |exact I|contradiction].
        -- destruct Hres as [-> Hh]. split; [reflexivity|].
           cbn. rewrite Hh. apply orb_true_r.
        -- destruct Hres as [-> Hw]. split; [reflexivity|].
           cbn. rewrite Z.eqb_refl. exact Hw.
      * intros [= <- <-]. eexists [_]. split; [reflexivity|].
        split; [reflexivity|]. cbn. now rewrite He.
    + set (k := Z.min (Z.of_nat n) (Z.of_nat (length data) - total)).
      assert (Hk : 0 <= k <= Z.of_nat (length data) - total) by lia.
      replace (k <? 0) with false by (symmetry; apply Z.ltb_ge; lia).
      intros Hrun.
      destruct (IH (total + k) _ _ _ ltac:(lia) Hrun) as (evs & Htr & Hres).
      eexists (_ :: evs). split.
      { rewrite Htr. cbn. rewrite <- app_assoc. reflexivity. }
      destruct res as [[v|t]| |]; [| |exact I|contradiction].
      * destruct Hres as [-> Hh]. split; [reflexivity|]. exact Hh.
      * destruct Hres as [-> Hw]. split; [reflexivity|].
        cbn. rewrite Z.eqb_refl, Hw.
        replace (Z.to_nat (total + k)) with (Z.to_nat total + Z.to_nat k)%nat
          by lia.
        rewrite <- drop_drop. apply take_drop.
Qed.

Lemma capacity_nonneg (script : list Posix.write_outcome) :
  0 <= Posix.capacity script.
Proof. induction script as [|[e|n] script IH]; cbn; lia. Qed.

(** With no hard failure and a pipe that takes the whole buffer in the
    end, the loop is left with everything written. *)
Lemma write_loop_completes (h : Posix.ProcessHandle) (data : list char)
      (script : list Posix.write_outcome) :
  forall (total : Z) (w : Posix.world),
    0 <= total <= Z.of_nat (length data) ->
    existsb Posix.hard script = false ->
    Z.of_nat (length data) - total <= Posix.capacity script ->
    exists w',
      Posix.write_loop script h data (Z.of_nat (length data)) total w
      = (Returns (Posix.LoopDone (Z.of_nat (length data))), w').
Proof.
  induction script as [|o script IH]; intros total w Ht Hh Hc;
    cbn [Posix.write_loop].
  - cbn in Hc. replace (total <? Z.of_nat (length data)) with false
      by (symmetry; apply Z.ltb_ge; lia).
    replace total with (Z.of_nat (length data)) by lia. eexists. reflexivity.
  - destruct (Z.ltb_spec total (Z.of_nat (length data))) as [Hlt|Hge].
    2:{ replace total with (Z.of_nat (length data)) by lia.
        eexists. reflexivity. }
    cbn in Hh. apply orb_false_iff in Hh as [Ho Hh].
    unfold bind at 1. destruct o as [e|n]; cbn [Posix.write].
    + replace (-1 <? 0) with true by reflexivity.
      cbn in Ho. apply negb_false_iff in Ho. rewrite Ho.
      apply IH; auto.
    + set (k := Z.min (Z.of_nat n) (Z.of_nat (length data) - total)).
      replace (k <? 0) with false by (symmetry; apply Z.ltb_ge; lia).
      pose proof (capacity_nonneg script). cbn in Hc.
      apply IH; [lia | exact Hh | lia].
Qed.

(** C3, as stated, fails on the Windows backend: the input endpoint is
    valid, the buffer holds 2 bytes, the pipe is reported closed, and
    [write_to_process] returns 0, which is neither -1 nor 2. *)
Lemma win_write_closed_pipe_returns_zero :
  Win32.input_fd win_handle <> Win32.INVALID_HANDLE_VALUE
  /\ fst (Win32.write_to_process (Win32.WriteFails Win32.ERROR_BROKEN_PIPE)
            (Some win_handle) (lit "hi") 2 win_spawned)
     = Returns 0
  /\ 0 <> -1 /\ 0 <> Z.of_nat (length (lit "hi")).
Proof. repeat split; discriminate. Qed.

(** C3, amended.  POSIX, for a valid input endpoint and a buffer of [N]
    bytes: a return of [write_to_process] is -1 after a [write] failed
    with an error other than [EINTR], or else it is [N], the bytes written
    are the buffer in order and the last call is the [fsync]; and with no
    such failure and a pipe that takes [N] bytes in the end it does return
    [N].  Windows: one [WriteFile], no loop and no retry; a failure gives 0
    when the pipe is reported closed and -1 otherwise; a success is
    flushed and gives the count of that one write, at most [length]. *)
Theorem write_to_process_results :
  (forall (script : list Posix.write_outcome) (h : Posix.ProcessHandle)
          (data : list char) (w : Posix.world),
      0 <= Posix.input_fd h ->
      let N := Z.of_nat (length data) in
      (forall res w',
          Posix.write_to_process script (Some h) data N w = (res, w') ->
          match res with
          | Returns v =>
              (v = -1 /\ existsb Posix.hard script = true)
              \/ (v = N
                  /\ exists evs,
                      Posix.trace w'
                      = Posix.trace w ++ evs ++ [Posix.EvFsync (Posix.input_fd h)]
                      /\ Posix.written_to (Posix.input_fd h) evs = data)
          | NoReturn => True
          | Undefined => False
          end)
      /\ (existsb Posix.hard script = false ->
          N <= Posix.capacity script ->
          exists w',
            Posix.write_to_process script (Some h) data N w = (Returns N, w')))
  /\
  (forall (o : Win32.writefile_outcome) (h : Win32.ProcessHandle)
          (data : list char) (length : Z) (w : Win32.world),
      Win32.input_fd h <> Win32.INVALID_HANDLE_VALUE ->
      0 <= length <= INT_MAX ->
      let r := Win32.write_to_process o (Some h) data length w in
      match o with
      | Win32.WriteFails e =>
          fst r = Returns (if (e =? Win32.ERROR_NO_DATA)
                              || (e =? Win32.ERROR_BROKEN_PIPE)
                           then 0 else -1)
          /\ Win32.trace (snd r)
             = Win32.trace w ++ [Win32.EvWriteFile (Win32.input_fd h) [] false]
      | Win32.WriteTakes n =>
          let k := Z.min (Z.of_nat n) length in
          fst r = Returns k
          /\ Win32.trace (snd r)
             = Win32.trace w ++
               [Win32.EvWriteFile (Win32.input_fd h)
                  (take (Z.to_nat k) data) true;
                Win32.EvFlushFileBuffers (Win32.input_fd h)]
      end).
Proof.
  split.
  - intros script h data w Hfd N. unfold Posix.write_to_process.
    replace (Posix.input_fd h <? 0) with false
      by (symmetry; apply Z.ltb_ge; lia).
    split.
    + intros res w'. unfold bind.
      destruct (Posix.write_loop script h data N 0 w) as [e w1] eqn:Hloop.
      destruct (write_loop_spec h data script 0 w w1 e ltac:(lia) Hloop)
        as (evs & Htr & He).
      destruct e as [[v|t]| |]; [| | |contradiction].
      * intros [= <- <-]. left. exact He.
      * cbn. intros [= <- <-]. right. destruct He as [-> Hw].
        split; [reflexivity|]. exists evs. split.
        -- cbn. rewrite Htr, <- app_assoc. reflexivity.
        -- exact Hw.
      * intros [= <- <-]. exact I.
    + intros Hh Hc.
      destruct (write_loop_completes h data script 0 w ltac:(lia) Hh ltac:(lia))
        as [w1 Hloop].
      unfold bind. fold N in Hloop. rewrite Hloop. cbn. eexists. reflexivity.
  - intros o h data len w Hv Hlen. cbn zeta. unfold Win32.write_to_process.
    replace (Win32.input_fd h =? Win32.INVALID_HANDLE_VALUE) with false
      by (symmetry; now apply Z.eqb_neq).
    unfold bind. destruct o as [n|e]; cbn [Win32.WriteFile].
    + rewrite (to_dword_small len Hlen). cbn.
      rewrite to_int_small by (unfold INT_MAX in *; lia).
      split; [reflexivity|]. rewrite <- app_assoc. reflexivity.
    + cbn. destruct ((e =? Win32.ERROR_NO_DATA) || (e =? Win32.ERROR_BROKEN_PIPE));
        split; reflexivity.
Qed.

(** Two bytes written: POSIX after an interruption and a partial write,
    Windows in its single write. *)
Lemma write_to_process_results_witness :
  (exists w',
      Posix.write_to_process [Posix.WriteFails Posix.EINTR; Posix.WriteTakes 1;
                              Posix.WriteTakes 5]
        (Some posix_handle) (lit "hi") 2 posix_spawned = (Returns 2, w'))
  /\ fst (Win32.write_to_process (Win32.WriteTakes 5) (Some win_handle)
            (lit "hi") 2 win_spawned) = Returns 2.
Proof.
  split.
  - refine (proj2 (proj1 write_to_process_results _ posix_handle (lit "hi")
                     posix_spawned _) _ _).
    + cbn. lia.
    + reflexivity.
    + cbn. lia.
  - refine (proj1 (proj2 write_to_process_results (Win32.WriteTakes 5)
                     win_handle (lit "hi") 2 win_spawned _ _)).
    + discriminate.
    + unfold INT_MAX. lia.
Defined.

End Writer.

Section Reader.
Import CStr Exec Scenario.

Lemma to_size_t_small (x : Z) : 0 <= x <= INT_MAX -> to_size_t x = x.
Proof. unfold to_size_t, INT_MAX. intros H. apply Z.mod_small. lia. Qed.

(** Storing the terminator after [n] bytes read. *)
Lemma fill_terminate {W : Type} (buffer data : list char) (n : Z) (w : W) :
  0 < n -> n <= Z.of_nat (length data) -> n < Z.of_nat (length buffer) ->
  store (fill buffer data n) n NUL w
  = (Returns (take (Z.to_nat n) data
              ++ NUL :: drop (S (Z.to_nat n)) buffer), w).
Proof.
  intros Hn Hd Hb. unfold store, fill.
  assert (Hlen : length (take (Z.to_nat n) data) = Z.to_nat n)
    by (rewrite length_take; lia).
  assert (Hin : (0 <=? n)
                && (n <? Z.of_nat (length (take (Z.to_nat n) data
                                           ++ drop (Z.to_nat n) buffer)))
                = true).
  { apply andb_true_iff. split; [apply Z.leb_le; lia|].
    apply Z.ltb_lt. rewrite length_app, Hlen, length_drop. lia. }
  rewrite Hin. unfold ret. f_equal. f_equal.
  rewrite insert_app_r_alt by lia. f_equal.
  rewrite Hlen, Nat.sub_diag.
  destruct (lookup_lt_is_Some_2 buffer (Z.to_nat n) ltac:(lia)) as [c Hc].
  rewrite (drop_S _ _ _ Hc). reflexivity.
Qed.

Lemma read_result_unchanged (buffer data : list char) (size n : Z) :
  1 <= size -> n <= 0 -> read_result buffer data size n buffer.
Proof. intros Hs Hn. unfold read_result. repeat split; try lia. Qed.

(** The [read] and the termination shared by the POSIX read operations. *)
Lemma posix_read_terminated (o : Posix.read_outcome) (fd : Z)
      (buffer : list char) (size : Z) (w : Posix.world) :
  1 <= size <= INT_MAX -> Z.of_nat (length buffer) = size ->
  exists n b w',
    Posix.read_terminated o fd buffer size w = (Returns (n, b), w')
    /\ read_result buffer (Posix.delivered o) size n b.
Proof.
  intros Hs Hb. unfold Posix.read_terminated, bind.
  destruct o as [e|data]; cbn [Posix.read Posix.delivered].
  - cbn [fst snd]. change (to_int (-1)) with (-1). cbn.
    do 3 eexists. split; [reflexivity|].
    apply read_result_unchanged; lia.
  - rewrite to_size_t_small by lia.
    set (n := Z.min (size - 1) (Z.of_nat (length data))).
    assert (Hn : 0 <= n <= size - 1) by lia.
    assert (Hd : n <= Z.of_nat (length data)) by lia.
    clearbody n.
    replace (n <=? Z.of_nat (length buffer)) with true
      by (symmetry; apply Z.leb_le; lia).
    cbn [fst snd].
    rewrite !(to_int_small n) by lia.
    destruct (Z.gtb_spec n 0) as [Hpos|Hzero].
    + rewrite fill_terminate by lia. do 3 eexists. split; [reflexivity|].
      unfold read_result. split; [lia|]. split; [|lia].
      intros _. split; [lia | reflexivity].
    + assert (n = 0) as -> by lia. cbn. do 3 eexists. split; [reflexivity|].
      apply read_result_unchanged; lia.
Qed.

(** What is left of a read of [k] bytes, [k] at most [size - 1]. *)
Lemma read_result_filled (buffer data : list char) (size k : Z) :
  1 <= size -> Z.of_nat (length buffer) = size ->
  0 <= k <= size - 1 -> k <= Z.of_nat (length data) ->
  forall (W : Type) (w : W),
    (if k >? 0 then store (fill buffer data k) k NUL w
     else (Returns (fill buffer data k), w))
    = (Returns (if k >? 0
                then take (Z.to_nat k) data ++ NUL :: drop (S (Z.to_nat k)) buffer
                else buffer), w)
    /\ read_result buffer data size k
         (if k >? 0
          then take (Z.to_nat k) data ++ NUL :: drop (S (Z.to_nat k)) buffer
          else buffer).
Proof.
  intros Hs Hb Hk Hd W w. destruct (Z.gtb_spec k 0) as [Hpos|Hzero].
  - rewrite fill_terminate by lia. split; [reflexivity|].
    unfold read_result. split; [lia|]. split; [|lia].
    intros _. split; [lia | reflexivity].
  - assert (k = 0) as -> by lia. split; [reflexivity|].
    apply read_result_unchanged; lia.
Qed.

Lemma win_read_from_handle_result (env : Win32.read_env) (h : Z)
      (buffer : list char) (size ms : Z) (w : Win32.world) :
  1 <= size <= INT_MAX -> Z.of_nat (length buffer) = size ->
  match fst (Win32.read_from_handle env h buffer size ms w) with
  | Returns (n, b) => read_result buffer (Win32.delivered env) size n b
  | NoReturn => False
  | Undefined => Win32.other_error env = true
  end.
Proof.
  intros Hs Hb. unfold Win32.read_from_handle.
  destruct (h =? Win32.INVALID_HANDLE_VALUE).
  { cbn. apply read_result_unchanged; lia. }
  unfold bind at 1. unfold Win32.CreateEvent.
  destruct (Win32.event_granted env); cbn [fst snd].
  2:{ cbn. apply read_result_unchanged; lia. }
  destruct (Win32.next_handle w =? Win32.NULL_HANDLE).
  { cbn. apply read_result_unchanged; lia. }
  match goal with
  | |- context [bind (if negb _ then _ else _) ?T] => set (tail := T)
  end.
  match goal with
  | |- context [bind _ _ ?w1] => generalize w1
  end.
  (* the tail: close the event, terminate the buffer, return *)
  assert (T0 : forall w1, fst (tail (0, buffer) w1) = Returns (0, buffer)).
  { intros w1. unfold tail, bind, Win32.when. destruct (negb _); reflexivity. }
  assert (Tk : forall data w1,
             let k := Z.min (size - 1) (Z.of_nat (length data)) in
             exists n b,
               fst (tail (k, fill buffer data k) w1) = Returns (n, b)
               /\ read_result buffer data size n b).
  { intros data w1 k. assert (Hk : 0 <= k <= size - 1) by lia.
    assert (Hd : k <= Z.of_nat (length data)) by lia. clearbody k.
    unfold tail, bind, Win32.when.
    destruct (negb _); cbn [Win32.CloseHandle ret].
    - set (w2 := Win32.record _ _).
      destruct (read_result_filled buffer data size k ltac:(lia) Hb Hk Hd _ w2)
        as [E R].
      destruct (Z.gtb_spec k 0) as [Hpos|Hzero].
      + rewrite E. unfold ret. rewrite to_int_small by lia.
        do 2 eexists. split; [reflexivity | exact R].
      + assert (k = 0) as -> by lia. cbn.
        do 2 eexists. split; [reflexivity|].
        apply read_result_unchanged; lia.
    - destruct (read_result_filled buffer data size k ltac:(lia) Hb Hk Hd _ w1)
        as [E R].
      destruct (Z.gtb_spec k 0) as [Hpos|Hzero].
      + rewrite E. unfold ret. rewrite to_int_small by lia.
        do 2 eexists. split; [reflexivity | exact R].
      + assert (k = 0) as -> by lia. cbn.
        do 2 eexists. split; [reflexivity|].
        apply read_result_unchanged; lia. }
  assert (Tbad : forall w1, fst (tail (to_dword (-1), buffer) w1) = Undefined).
  { intros w1. unfold tail, bind, Win32.when, store.
    change (to_dword (-1)) with 4294967295.
    replace (4294967295 <? Z.of_nat (length buffer)) with false
      by (symmetry; apply Z.ltb_ge; unfold INT_MAX in Hs; lia).
    destruct (negb _); reflexivity. }
  intros w1. unfold bind at 1, Win32.delivered, Win32.other_error.
  destruct (Win32.readfile_answer env) as [data|e]; cbn [Win32.ReadFile].
  - rewrite to_dword_small by lia.
    replace (Z.min (size - 1) (Z.of_nat (length data)) <=? Z.of_nat (length buffer))
      with true by (symmetry; apply Z.leb_le; lia).
    cbn [negb]. unfold bind at 1, ret at 1.
    destruct (Tk data (Win32.record (Win32.EvReadFile h (size - 1) true) w1))
      as (n & b & -> & R). exact R.
  - cbn [negb]. unfold bind at 1, bind at 1, Win32.GetLastError.
    cbn [Win32.last_error Win32.record Win32.set_last_error].
    destruct (e =? Win32.ERROR_IO_PENDING).
    + unfold bind at 1, Win32.WaitForSingleObject.
      destruct (Win32.wait_answer env =? Win32.WAIT_OBJECT_0).
      * unfold bind at 1.
        destruct (Win32.overlapped_answer env) as [data|];
          cbn [Win32.GetOverlappedResult].
        -- rewrite to_dword_small by lia.
           replace (Z.min (size - 1) (Z.of_nat (length data))
                    <=? Z.of_nat (length buffer))
             with true by (symmetry; apply Z.leb_le; lia).
           cbn [negb]. unfold ret at 1.
           match goal with
           | |- context [tail _ ?w2] =>
               destruct (Tk data w2) as (n & b & -> & R)
           end.
           exact R.
        -- cbn [negb]. unfold ret at 1. rewrite T0.
           apply read_result_unchanged; lia.
      * unfold bind at 1, Win32.CancelIo, ret at 1. rewrite T0.
        apply read_result_unchanged; lia.
    + destruct (e =? Win32.ERROR_BROKEN_PIPE).
      * unfold ret at 1. rewrite T0. apply read_result_unchanged; lia.
      * unfold ret at 1. rewrite Tbad. reflexivity.
Qed.

Lemma posix_read_from_result (a : Posix.poll_answer) (o : Posix.read_outcome)
      (fd : Z) (buffer : list char) (size ms : Z) (w : Posix.world) :
  1 <= size <= INT_MAX -> Z.of_nat (length buffer) = size ->
  exists n b w',
    Posix.read_from a o fd buffer size ms w = (Returns (n, b), w')
    /\ read_result buffer (Posix.delivered o) size n b.
Proof.
  intros Hs Hb. unfold Posix.read_from, bind, Posix.poll. cbn [fst snd].
  destruct (Posix.poll_result a =? -1).
  { do 3 eexists. split; [reflexivity|]. apply read_result_unchanged; lia. }
  destruct (Posix.poll_result a =? 0).
  { do 3 eexists. split; [reflexivity|]. apply read_result_unchanged; lia. }
  destruct (Posix.has _ Posix.POLLIN).
  { now apply posix_read_terminated. }
  destruct (Posix.has _ Posix.POLLHUP);
    do 3 eexists; (split; [reflexivity|]); apply read_result_unchanged; lia.
Qed.

Lemma posix_scan_ready_result (o : Posix.read_outcome)
      (h : Posix.ProcessHandle) (buffer : list char) (size : Z)
      (source : option Z) (pfds : list Posix.pollfd) :
  1 <= size <= INT_MAX -> Z.of_nat (length buffer) = size ->
  forall (i : nat) (w : Posix.world),
  exists n b s w',
    Posix.scan_ready o h buffer size source i pfds w = (Returns (n, b, s), w')
    /\ read_result buffer (Posix.delivered o) size n b.
Proof.
  intros Hs Hb. induction pfds as [|p pfds IH]; intros i w; cbn [Posix.scan_ready].
  - do 4 eexists. split; [reflexivity|]. apply read_result_unchanged; lia.
  - destruct (Posix.has (Posix.pfd_revents p) Posix.POLLIN); [|apply IH].
    destruct ((i =? 0)%nat && (Posix.output_fd h >=? 0)); unfold bind.
    + destruct (posix_read_terminated o (Posix.output_fd h) buffer size w Hs Hb)
        as (n & b & w' & -> & R).
      do 4 eexists. split; [reflexivity | exact R].
    + destruct (posix_read_terminated o (Posix.error_fd h) buffer size w Hs Hb)
        as (n & b & w' & -> & R).
      do 4 eexists. split; [reflexivity | exact R].
Qed.

Lemma posix_read_available_result (a : Posix.poll_answer)
      (o : Posix.read_outcome) (h : option Posix.ProcessHandle)
      (buffer : list char) (size ms : Z) (source : option Z)
      (w : Posix.world) :
  1 <= size <= INT_MAX -> Z.of_nat (length buffer) = size ->
  exists n b s w',
    Posix.read_available a o h buffer size ms source w
    = (Returns (n, b, s), w')
    /\ read_result buffer (Posix.delivered o) size n b.
Proof.
  intros Hs Hb. unfold Posix.read_available.
  destruct h as [h|].
  2:{ do 4 eexists. split; [reflexivity|]. apply read_result_unchanged; lia. }
  destruct (_ =? 0)%nat.
  { do 4 eexists. split; [reflexivity|]. apply read_result_unchanged; lia. }
  unfold bind, Posix.poll. cbn [fst snd].
  destruct (Posix.poll_result a =? -1).
  { do 4 eexists. split; [reflexivity|]. apply read_result_unchanged; lia. }
  destruct (Posix.poll_result a =? 0).
  { do 4 eexists. split; [reflexivity|]. apply read_result_unchanged; lia. }
  now apply posix_scan_ready_result.
Qed.

Lemma win_read_available_result (env : Win32.avail_env)
      (h : option Win32.ProcessHandle) (buffer : list char) (size ms : Z)
      (source : option Z) (w : Win32.world) :
  1 <= size <= INT_MAX -> Z.of_nat (length buffer) = size ->
  exists n b s,
    fst (Win32.read_available env h buffer size ms source w)
    = Returns (n, b, s)
    /\ read_result buffer (Win32.avail_delivered env) size n b.
Proof.
  intros Hs Hb. unfold Win32.read_available.
  destruct h as [h|].
  2:{ do 3 eexists. split; [reflexivity|]. apply read_result_unchanged; lia. }
  destruct (_ =? 0).
  { do 3 eexists. split; [reflexivity|]. apply read_result_unchanged; lia. }
  unfold bind at 1, Win32.WaitForMultipleObjects.
  destruct (_ =? Win32.WAIT_TIMEOUT).
  { do 3 eexists. split; [reflexivity|]. apply read_result_unchanged; lia. }
  destruct (_ && _).
  2:{ destruct (_ =? Win32.WAIT_FAILED); do 3 eexists;
        (split; [reflexivity|]); apply read_result_unchanged; lia. }
  unfold bind at 1, Win32.avail_delivered.
  destruct (Win32.avail_readfile env) as [data|e]; cbn [Win32.ReadFile].
  - rewrite to_dword_small by lia.
    set (k := Z.min (size - 1) (Z.of_nat (length data))).
    assert (Hk : 0 <= k <= size - 1) by lia.
    assert (Hd : k <= Z.of_nat (length data)) by lia. clearbody k.
    replace (k <=? Z.of_nat (length buffer))
      with true by (symmetry; apply Z.leb_le; lia).
    cbn [andb].
    destruct (Z.gtb_spec k 0) as [Hpos|Hzero].
    + unfold bind. rewrite fill_terminate by lia.
      rewrite to_int_small by lia. unfold ret.
      do 3 eexists. split; [reflexivity|].
      unfold read_result. split; [lia|]. split; [|lia].
      intros _. split; [lia | reflexivity].
    + assert (k = 0) as -> by lia. unfold bind, Win32.GetLastError.
      destruct (_ =? Win32.ERROR_BROKEN_PIPE); do 3 eexists;
        (split; [reflexivity|]); apply read_result_unchanged; lia.
  - cbn [andb]. unfold bind, Win32.GetLastError.
    destruct (_ =? Win32.ERROR_BROKEN_PIPE); do 3 eexists;
      (split; [reflexivity|]); apply read_result_unchanged; lia.
Qed.

(** C4, as stated, fails for the result 0.  [poll] times out,
    [read_from_output] returns 0 and the buffer still starts with what it
    held before: no terminator at index 0. *)
Lemma read_timeout_leaves_buffer_unterminated :
  fst (Posix.read_from_output poll_timeout (Posix.ReadGives [])
         (Some posix_handle) stale_buffer 2 100 posix_spawned)
  = Returns (0, stale_buffer)
  /\ stale_buffer !! 0%nat = Some "x"%char
  /\ stale_buffer !! 0%nat <> Some NUL.
Proof. repeat split; discriminate. Qed.


End Reader.

Section ReadOutcomes.
Import CStr Exec Scenario.

Lemma posix_read_from_outcomes (a : Posix.poll_answer)
      (o : Posix.read_outcome) (fd : Z) (buffer : list char)
      (size ms : Z) (w : Posix.world) :
  let r := fst (Posix.read_from a o fd buffer size ms w) in
  (Posix.timed_out a -> r = Returns (0, buffer))
  /\ (Posix.end_of_stream a o -> r = Returns (0, buffer))
  /\ (Posix.poll_failed a -> r = Returns (-1, buffer))
  /\ (Posix.read_failed a o -> r = Returns (-1, buffer)).
Proof.
  cbn zeta. unfold Posix.read_from, bind, Posix.poll.
  cbn [fst snd imap Posix.pfd_revents]. fold (Posix.revents_of a).
  unfold Posix.timed_out, Posix.poll_failed, Posix.end_of_stream,
    Posix.read_failed, Posix.ready.
  destruct (Z.eqb_spec (Posix.poll_result a) (-1)) as [E1|E1];
    [rewrite E1; repeat split; (reflexivity || intros; lia || tauto)|].
  destruct (Z.eqb_spec (Posix.poll_result a) 0) as [E0|E0];
    [repeat split; (reflexivity || intros; lia || tauto)|].
  repeat split; try (intros; lia).
  - intros [_ [[Hin ->]|[Hin Hup]]]; rewrite Hin.
    + unfold Posix.read_terminated, bind, Posix.read.
      assert (Hz : Z.min (to_size_t (size - 1)) (Z.of_nat (@length char [])) = 0).
      { cbn. unfold to_size_t.
        pose proof (Z.mod_pos_bound (size - 1) (2 ^ 64) ltac:(lia)). lia. }
      rewrite Hz.
      replace (0 <=? Z.of_nat (length buffer)) with true
        by (symmetry; apply Z.leb_le; lia).
      reflexivity.
    + rewrite Hup. reflexivity.
  - intros (_ & Hin & e & ->). rewrite Hin. reflexivity.
Qed.

Lemma win_read_from_handle_outcomes (env : Win32.read_env) (h : Z)
      (buffer : list char) (size ms : Z) (w : Win32.world) :
  h <> Win32.INVALID_HANDLE_VALUE -> 0 < Win32.next_handle w ->
  let r := fst (Win32.read_from_handle env h buffer size ms w) in
  (Win32.event_granted env = false -> r = Returns (-1, buffer))
  /\ (Win32.event_granted env = true ->
      (Win32.timed_out env -> r = Returns (0, buffer))
      /\ (Win32.end_of_stream env -> r = Returns (0, buffer))
      /\ (Win32.wait_failed env -> r = Returns (0, buffer))
      /\ (Win32.overlapped_failed env -> r = Returns (0, buffer))
      /\ (Win32.other_error env = true ->
          Z.of_nat (length buffer) <= INT_MAX -> r = Undefined)).
Proof.
  intros Hh Hn r.
  assert (Hnull : (Win32.next_handle w =? Win32.NULL_HANDLE) = false)
    by (apply Z.eqb_neq; unfold Win32.NULL_HANDLE; lia).
  assert (Hinv : (Win32.next_handle w =? Win32.INVALID_HANDLE_VALUE) = false)
    by (apply Z.eqb_neq; unfold Win32.INVALID_HANDLE_VALUE; lia).
  assert (Hvalid : (h =? Win32.INVALID_HANDLE_VALUE) = false)
    by now apply Z.eqb_neq.
  split; [|intros Hg; repeat split]; subst r;
    unfold Win32.read_from_handle; rewrite Hvalid;
    unfold bind at 1, Win32.CreateEvent.
  - intros ->. reflexivity.
  - rewrite Hg. cbn [fst snd]. rewrite Hnull, Hinv.
    intros [-> ->]. reflexivity.
  - rewrite Hg. cbn [fst snd]. rewrite Hnull, Hinv.
    intros ->. reflexivity.
  - rewrite Hg. cbn [fst snd]. rewrite Hnull, Hinv.
    intros [-> ->]. reflexivity.
  - rewrite Hg. cbn [fst snd]. rewrite Hnull, Hinv.
    intros (-> & -> & ->). reflexivity.
  - rewrite Hg. cbn [fst snd]. rewrite Hnull, Hinv.
    unfold Win32.other_error.
    destruct (Win32.readfile_answer env) as [data|e]; [discriminate|].
    intros He Hlen. apply andb_true_iff in He as [He1 He2].
    apply negb_true_iff in He1, He2.
    unfold bind, Win32.ReadFile, Win32.GetLastError. cbn.
    rewrite He1, He2. cbn. unfold store.
    change (to_dword (-1)) with 4294967295.
    replace (4294967295 <? Z.of_nat (length buffer)) with false
      by (symmetry; apply Z.ltb_ge; unfold INT_MAX in Hlen; lia).
    reflexivity.
Qed.

(** C4, amended.  For a buffer of [size >= 1] bytes every read operation
    returns at most [size - 1]; a positive result [n] leaves [n] bytes of
    data, a terminator at index [n] and the rest of the buffer as it was;
    a result of 0 or less leaves the buffer as it was, without a
    terminator.  The POSIX operations and the Windows [read_available]
    always return so.  One path is excepted: when the Windows
    [read_from_output] or [read_from_error] has created its event and
    [ReadFile] fails at once with an error other than [ERROR_IO_PENDING]
    and [ERROR_BROKEN_PIPE], the terminator is stored at index 4294967295,
    outside the buffer, before -1 is returned; this is the only path on
    which they do not return as stated. *)
Theorem read_bounded_and_terminated :
  (forall (a : Posix.poll_answer) (o : Posix.read_outcome)
          (h : option Posix.ProcessHandle) (buffer : list char)
          (size ms : Z) (source : option Z) (w : Posix.world),
      1 <= size <= INT_MAX -> Z.of_nat (length buffer) = size ->
      (exists n b w',
          Posix.read_from_output a o h buffer size ms w = (Returns (n, b), w')
          /\ read_result buffer (Posix.delivered o) size n b)
      /\ (exists n b w',
          Posix.read_from_error a o h buffer size ms w = (Returns (n, b), w')
          /\ read_result buffer (Posix.delivered o) size n b)
      /\ (exists n b s w',
          Posix.read_available a o h buffer size ms source w
          = (Returns (n, b, s), w')
          /\ read_result buffer (Posix.delivered o) size n b))
  /\
  (forall (env : Win32.read_env) (aenv : Win32.avail_env)
          (h : option Win32.ProcessHandle) (buffer : list char)
          (size ms : Z) (source : option Z) (w : Win32.world),
      1 <= size <= INT_MAX -> Z.of_nat (length buffer) = size ->
      match fst (Win32.read_from_output env h buffer size ms w) with
      | Returns (n, b) => read_result buffer (Win32.delivered env) size n b
      | NoReturn => False
      | Undefined => Win32.other_error env = true
      end
      /\ match fst (Win32.read_from_error env h buffer size ms w) with
         | Returns (n, b) => read_result buffer (Win32.delivered env) size n b
         | NoReturn => False
         | Undefined => Win32.other_error env = true
         end
      /\ (exists n b s,
          fst (Win32.read_available aenv h buffer size ms source w)
          = Returns (n, b, s)
          /\ read_result buffer (Win32.avail_delivered aenv) size n b))
  /\
  (forall (env : Win32.read_env) (h : Win32.ProcessHandle)
          (buffer : list char) (size ms : Z) (w : Win32.world),
      Z.of_nat (length buffer) <= INT_MAX -> 0 < Win32.next_handle w ->
      Win32.event_granted env = true -> Win32.other_error env = true ->
      (Win32.output_fd h <> Win32.INVALID_HANDLE_VALUE ->
       fst (Win32.read_from_output env (Some h) buffer size ms w)
       = Undefined)
      /\ (Win32.error_fd h <> Win32.INVALID_HANDLE_VALUE ->
          fst (Win32.read_from_error env (Some h) buffer size ms w)
          = Undefined)).
Proof.
  split; [|split].
  - intros a o h buffer size ms source w Hs Hb. split; [|split].
    + unfold Posix.read_from_output. destruct h as [h|].
      2:{ do 3 eexists. split; [reflexivity|].
          apply read_result_unchanged; lia. }
      destruct (Posix.output_fd h <? 0).
      { do 3 eexists. split; [reflexivity|].
        apply read_result_unchanged; lia. }
      now apply posix_read_from_result.
    + unfold Posix.read_from_error. destruct h as [h|].
      2:{ do 3 eexists. split; [reflexivity|].
          apply read_result_unchanged; lia. }
      destruct (Posix.error_fd h <? 0).
      { do 3 eexists. split; [reflexivity|].
        apply read_result_unchanged; lia. }
      now apply posix_read_from_result.
    + now apply posix_read_available_result.
  - intros env aenv h buffer size ms source w Hs Hb. split; [|split].
    + unfold Win32.read_from_output. destruct h as [h|].
      2:{ cbn. apply read_result_unchanged; lia. }
      destruct (Win32.output_fd h =? Win32.INVALID_HANDLE_VALUE).
      { cbn. apply read_result_unchanged; lia. }
      now apply win_read_from_handle_result.
    + unfold Win32.read_from_error. destruct h as [h|].
      2:{ cbn. apply read_result_unchanged; lia. }
      destruct (Win32.error_fd h =? Win32.INVALID_HANDLE_VALUE).
      { cbn. apply read_result_unchanged; lia. }
      now apply win_read_from_handle_result.
    + now apply win_read_available_result.
  - intros env h buffer size ms w Hlen Hn Hg Ho. split; intros Hfd.
    + unfold Win32.read_from_output.
      replace (Win32.output_fd h =? Win32.INVALID_HANDLE_VALUE) with false
        by (symmetry; now apply Z.eqb_neq).
      destruct (win_read_from_handle_outcomes env (Win32.output_fd h) buffer
                  size ms w Hfd Hn) as [_ H].
      destruct (H Hg) as (_ & _ & _ & _ & Hbad). now apply Hbad.
    + unfold Win32.read_from_error.
      replace (Win32.error_fd h =? Win32.INVALID_HANDLE_VALUE) with false
        by (symmetry; now apply Z.eqb_neq).
      destruct (win_read_from_handle_outcomes env (Win32.error_fd h) buffer
                  size ms w Hfd Hn) as [_ H].
      destruct (H Hg) as (_ & _ & _ & _ & Hbad). now apply Hbad.
Qed.

(** A read into the two-byte buffer on each backend, and a Windows read
    that fails at once with error 5. *)
Lemma read_bounded_and_terminated_witness :
  (exists n b w',
      Posix.read_from_output poll_readable (Posix.ReadGives (lit "abc"))
        (Some posix_handle) stale_buffer 2 100 posix_spawned
      = (Returns (n, b), w')
      /\ read_result stale_buffer (lit "abc") 2 n b)
  /\ match fst (Win32.read_from_output win_read_one (Some win_handle)
                  stale_buffer 2 100 win_spawned) with
     | Returns (n, b) => read_result stale_buffer (lit "a") 2 n b
     | NoReturn => False
     | Undefined => Win32.other_error win_read_one = true
     end
  /\ fst (Win32.read_from_output win_read_denied (Some win_handle)
            stale_buffer 2 100 win_spawned) = Undefined.
Proof.
  assert (Hs : 1 <= 2 <= INT_MAX) by (unfold INT_MAX; lia).
  assert (Hb : Z.of_nat (length stale_buffer) = 2) by reflexivity.
  split; [|split].
  - exact (proj1 (proj1 read_bounded_and_terminated poll_readable
                    (Posix.ReadGives (lit "abc")) (Some posix_handle)
                    stale_buffer 2 100 None posix_spawned Hs Hb)).
  - exact (proj1 (proj1 (proj2 read_bounded_and_terminated) win_read_one
                    (Win32.mkAvailEnv 0 (Win32.ReadFails 0)) (Some win_handle)
                    stale_buffer 2 100 None win_spawned Hs Hb)).
  - refine (proj1 (proj2 (proj2 read_bounded_and_terminated) win_read_denied
                     win_handle stale_buffer 2 100 win_spawned _ _ _ _) _).
    + unfold INT_MAX. cbn. lia.
    + vm_compute. reflexivity.
    + reflexivity.
    + reflexivity.
    + discriminate.
Defined.

(** C5, as stated, fails on the Windows backend: the read is under way,
    the wait for it fails, and [read_from_output] returns 0 as for a
    timeout, not -1. *)
Lemma win_wait_failure_returns_zero :
  Win32.wait_failed win_wait_fails
  /\ fst (Win32.read_from_output win_wait_fails (Some win_handle)
            stale_buffer 2 100 win_spawned)
     = Returns (0, stale_buffer)
  /\ 0 <> -1.
Proof. repeat split; discriminate. Qed.

(** C5, amended.  For [read_from_output] and [read_from_error] a timeout
    and an end of stream both give the result 0 with the buffer untouched.
    POSIX: a failed [poll] and a failed [read] give -1.  Windows: a failed
    wait is handled as a timeout and gives 0, and so does a result that
    cannot be fetched; -1 is given when the event cannot be created. *)
Theorem read_timeout_and_end_of_stream :
  (forall (a : Posix.poll_answer) (o : Posix.read_outcome)
          (h : Posix.ProcessHandle) (buffer : list char) (size ms : Z)
          (w : Posix.world),
      (0 <= Posix.output_fd h ->
       let r := fst (Posix.read_from_output a o (Some h) buffer size ms w) in
       (Posix.timed_out a -> r = Returns (0, buffer))
       /\ (Posix.end_of_stream a o -> r = Returns (0, buffer))
       /\ (Posix.poll_failed a -> r = Returns (-1, buffer))
       /\ (Posix.read_failed a o -> r = Returns (-1, buffer)))
      /\
      (0 <= Posix.error_fd h ->
       let r := fst (Posix.read_from_error a o (Some h) buffer size ms w) in
       (Posix.timed_out a -> r = Returns (0, buffer))
       /\ (Posix.end_of_stream a o -> r = Returns (0, buffer))
       /\ (Posix.poll_failed a -> r = Returns (-1, buffer))
       /\ (Posix.read_failed a o -> r = Returns (-1, buffer))))
  /\
  (forall (env : Win32.read_env) (h : Win32.ProcessHandle)
          (buffer : list char) (size ms : Z) (w : Win32.world),
      0 < Win32.next_handle w ->
      (Win32.output_fd h <> Win32.INVALID_HANDLE_VALUE ->
       let r := fst (Win32.read_from_output env (Some h) buffer size ms w) in
       (Win32.event_granted env = false -> r = Returns (-1, buffer))
       /\ (Win32.event_granted env = true ->
           (Win32.timed_out env -> r = Returns (0, buffer))
           /\ (Win32.end_of_stream env -> r = Returns (0, buffer))
           /\ (Win32.wait_failed env -> r = Returns (0, buffer))
           /\ (Win32.overlapped_failed env -> r = Returns (0, buffer))))
      /\
      (Win32.error_fd h <> Win32.INVALID_HANDLE_VALUE ->
       let r := fst (Win32.read_from_error env (Some h) buffer size ms w) in
       (Win32.event_granted env = false -> r = Returns (-1, buffer))
       /\ (Win32.event_granted env = true ->
           (Win32.timed_out env -> r = Returns (0, buffer))
           /\ (Win32.end_of_stream env -> r = Returns (0, buffer))
           /\ (Win32.wait_failed env -> r = Returns (0, buffer))
           /\ (Win32.overlapped_failed env -> r = Returns (0, buffer))))).
Proof.
  split.
  - intros a o h buffer size ms w. split; intros Hfd; cbn zeta.
    + unfold Posix.read_from_output.
      replace (Posix.output_fd h <? 0) with false
        by (symmetry; apply Z.ltb_ge; lia).
      apply posix_read_from_outcomes.
    + unfold Posix.read_from_error.
      replace (Posix.error_fd h <? 0) with false
        by (symmetry; apply Z.ltb_ge; lia).
      apply posix_read_from_outcomes.
  - intros env h buffer size ms w Hn. split; intros Hfd; cbn zeta.
    + unfold Win32.read_from_output.
      replace (Win32.output_fd h =? Win32.INVALID_HANDLE_VALUE) with false
        by (symmetry; now apply Z.eqb_neq).
      destruct (win_read_from_handle_outcomes env (Win32.output_fd h) buffer
                  size ms w Hfd Hn) as [H1 H2].
      split; [exact H1|]. intros Hg.
      destruct (H2 Hg) as (A & B & C & D & _). auto.
    + unfold Win32.read_from_error.
      replace (Win32.error_fd h =? Win32.INVALID_HANDLE_VALUE) with false
        by (symmetry; now apply Z.eqb_neq).
      destruct (win_read_from_handle_outcomes env (Win32.error_fd h) buffer
                  size ms w Hfd Hn) as [H1 H2].
      split; [exact H1|]. intros Hg.
      destruct (H2 Hg) as (A & B & C & D & _). auto.
Qed.

(** A POSIX timeout and a Windows failed wait: both give 0. *)
Lemma read_timeout_and_end_of_stream_witness :
  fst (Posix.read_from_output poll_timeout (Posix.ReadGives [])
         (Some posix_handle) stale_buffer 2 100 posix_spawned)
  = Returns (0, stale_buffer)
  /\ fst (Win32.read_from_output win_wait_fails (Some win_handle)
            stale_buffer 2 100 win_spawned)
     = Returns (0, stale_buffer).
Proof.
  split.
  - refine (proj1 (proj1 (proj1 read_timeout_and_end_of_stream poll_timeout
                            (Posix.ReadGives []) posix_handle stale_buffer
                            2 100 posix_spawned) _) _).
    + cbn. lia.
    + reflexivity.
  - refine (proj1 (proj2 (proj2 (proj2
              (proj1 (proj2 read_timeout_and_end_of_stream win_wait_fails
                        win_handle stale_buffer 2 100 win_spawned _) _)
              _))) _).
    + vm_compute. reflexivity.
    + discriminate.
    + reflexivity.
    + split; reflexivity.
Defined.

End ReadOutcomes.

(* ===================================================================== *)
(** * Further properties of the command line *)
(* ===================================================================== *)

Section CommandLine.
Import CStr WinQuote WinArgv Scenario.

(** An unquoted token without quote and blank passes through the
    splitter, its backslashes pending until the next character. *)
Lemma split_unquoted (t : list char) :
  Forall (fun c => c <> DQUOTE /\ is_blank c = false) t ->
  forall (k : nat) (started : bool) (cur : list char) done,
  exists k' cur',
    fold_left step t (mkPState Outside k started cur done)
    = mkPState Outside k' (match t with [] => started | _ => true end)
               cur' done
    /\ cur' ++ repeat BSLASH k' = cur ++ repeat BSLASH k ++ t.
Proof.
  induction 1 as [|c t [Hq Hb] Ht IH]; intros k started cur done.
  - exists k, cur. split; [reflexivity | now rewrite app_nil_r].
  - cbn [fold_left]. unfold step at 2, step_plain. cbn [st_mode].
    destruct (Ascii.eqb_spec c BSLASH) as [->|Hs].
    + cbn [st_slashes st_cur st_done].
      destruct (IH (S k) true cur done) as (k' & cur' & E & Hc).
      exists k', cur'. split.
      * rewrite E. destruct t; reflexivity.
      * rewrite Hc. cbn [repeat]. rewrite repeat_cons, <- !app_assoc.
        reflexivity.
    + destruct (Ascii.eqb_spec c DQUOTE) as [->|_]; [contradiction|].
      rewrite Hb. cbn [andb st_slashes st_cur st_done].
      destruct (IH 0%nat true ((cur ++ repeat BSLASH k) ++ [c]) done)
        as (k' & cur' & E & Hc).
      exists k', cur'. split.
      * rewrite E. destruct t; reflexivity.
      * rewrite Hc. cbn [repeat app]. rewrite <- !app_assoc. reflexivity.
Qed.

Lemma unquoted_chars (a : list char) :
  wf a -> needs_quoting a = 0 -> ~ In DQUOTE a ->
  a <> [] /\ Forall (fun c => c <> DQUOTE /\ is_blank c = false) a.
Proof.
  intros Hwf Hn Hq.
  assert (Hno : ~ (a = [] \/ In SPACE a \/ In TAB a \/ In LF a \/ In VT a)).
  { intros H. apply (needs_quoting_iff a Hwf) in H. lia. }
  split; [tauto|]. apply Forall_forall. intros c Hc.
  apply list_elem_of_In in Hc. split.
  - intros ->. contradiction.
  - unfold is_blank. apply orb_false_iff. split; apply Ascii.eqb_neq;
      intros ->; tauto.
Qed.

(** One token of the command line, after the blank that precedes it, is
    read back as the argument it was made from. *)
Lemma split_token (a t : list char) (st : pstate) done :
  safe_arg a -> emit_token a = Some t ->
  step st SPACE = between done ->
  let st' := fold_left step (SPACE :: t) st in
  step st' SPACE = between (done ++ [a]) /\ finish st' = done ++ [a].
Proof.
  intros [Hwf Hsafe] Ht Hst. cbn zeta. cbn [fold_left]. rewrite Hst.
  unfold emit_token in Ht.
  destruct (needs_quoting_cases a) as [Hn|Hn]; rewrite Hn in Ht; cbn in Ht.
  - destruct (quote_argument_body a Hwf) as (out & Hout & Hq).
    rewrite Hq in Ht. injection Ht as <-.
    change (fold_left step (DQUOTE :: out ++ [DQUOTE]) (between done))
      with (fold_left step (out ++ [DQUOTE]) (mkPState Inside 0 true [] done)).
    rewrite (split_quoted_body _ _ Hout). cbn [app].
    unfold step, step_plain, finish, between. cbn.
    rewrite !app_nil_r. split; reflexivity.
  - injection Ht as <-. rewrite (strcpy_wf _ Hwf).
    destruct Hsafe as [Hs|Hq]; [lia|].
    destruct (unquoted_chars a Hwf Hn Hq) as [Hne Hall].
    destruct (split_unquoted a Hall 0%nat false [] done)
      as (k' & cur' & E & Hc).
    assert (Est : match a with [] => false | _ => true end = true)
      by (destruct a; [contradiction | reflexivity]).
    cbn in Hc. unfold between. rewrite E, Est.
    unfold step, step_plain, finish. cbn. rewrite Hc.
    split; reflexivity.
Qed.

(** The arguments appended by [create_command_line_ex], each after one
    blank, are read back as they were. *)
Lemma split_args_line (args : list (list char)) :
  Forall safe_arg args ->
  forall (cmdline : list char) (st : pstate) done,
    step st SPACE = between done -> finish st = done ->
    exists flat,
      emit_args args cmdline = Some (cmdline ++ flat)
      /\ match args with
         | [] => flat = []
         | _ => exists rest, flat = SPACE :: rest
         end
      /\ finish (fold_left step flat st) = done ++ args.
Proof.
  induction 1 as [|a args Ha Hargs IH]; intros cmdline st done Hst Hfin.
  - exists []. rewrite !app_nil_r. repeat split. exact Hfin.
  - destruct (emit_token a) as [t|] eqn:Ht.
    2:{ exfalso. unfold emit_token in Ht.
        destruct (needs_quoting a =? 1); [|discriminate].
        destruct (quote_argument_total a) as [q Hq]. congruence. }
    destruct (split_token a t st done Ha Ht Hst) as [Hst' Hfin'].
    destruct (IH (cmdline ++ SPACE :: t) _ _ Hst' Hfin')
      as (flat & E & _ & Hres).
    exists (SPACE :: t ++ flat). cbn [emit_args]. rewrite Ht. cbn.
    split; [|split].
    + rewrite E. f_equal. rewrite <- !app_assoc. reflexivity.
    + eauto.
    + change (SPACE :: t ++ flat) with ((SPACE :: t) ++ flat).
      rewrite fold_left_app.
      change (fold_left step t (step st SPACE))
        with (fold_left step (SPACE :: t) st).
      rewrite Hres, <- app_assoc. reflexivity.
Qed.

Lemma parse_program_plain (cmd : list char) :
  Forall (fun c => c <> DQUOTE /\ is_blank c = false) cmd ->
  forall name rest,
    parse_program cmd false name = (name ++ cmd, [])
    /\ parse_program (cmd ++ SPACE :: rest) false name = (name ++ cmd, rest).
Proof.
  induction 1 as [|c cmd [Hq Hb] Hcmd IH]; intros name rest.
  - rewrite app_nil_r. split; reflexivity.
  - cbn [parse_program app].
    destruct (Ascii.eqb_spec c DQUOTE) as [->|_]; [contradiction|].
    rewrite Hb. cbn [andb].
    destruct (IH (name ++ [c]) rest) as [E1 E2].
    rewrite E1, E2, <- !app_assoc. split; reflexivity.
Qed.

(** X1.  Whatever the string, the token [quote_argument] makes of it is
    read back by the argument-splitting rule as that string, alone. *)
Theorem quote_argument_round_trip (s : list char) :
  wf s -> exists q, quote_argument s = Some q /\ parse_args q = [s].
Proof. apply parse_quote_argument. Qed.

(** The round trip of the argument of scenario C. *)
Lemma quote_argument_round_trip_witness :
  exists q, quote_argument scenario_C = Some q /\ parse_args q = [scenario_C].
Proof.
  apply quote_argument_round_trip. apply wfb_wf. reflexivity.
Defined.

(** X2.  For a program name without white space and double quote and
    arguments each of which has white space (or is empty) or has no double
    quote, the command line of [create_command_line_ex] is split back into
    exactly the program name and the arguments. *)
Theorem command_line_round_trip (cmd : list char) (args : list (list char)) :
  plain_name cmd -> Forall safe_arg args ->
  exists line,
    create_command_line_ex true cmd args = Some line
    /\ split_command_line line = cmd :: args.
Proof.
  intros (Hwf & Hn & Hq) Hargs.
  destruct (unquoted_chars cmd Hwf Hn Hq) as [_ Hall].
  destruct (split_args_line args Hargs cmd (between []) [] eq_refl eq_refl)
    as (flat & E & Hshape & Hres).
  exists (cmd ++ flat). split.
  - unfold create_command_line_ex, emit_token. rewrite Hn. cbn.
    rewrite (strcpy_wf _ Hwf). exact E.
  - unfold split_command_line.
    destruct args as [|a args].
    + subst flat. rewrite app_nil_r.
      rewrite (proj1 (parse_program_plain cmd Hall [] [])). reflexivity.
    + destruct Hshape as [rest ->].
      rewrite (proj2 (parse_program_plain cmd Hall [] rest)).
      cbn [app]. f_equal. unfold parse_args. exact Hres.
Qed.

(** The command line of [prog] and the three sample arguments. *)
Lemma command_line_round_trip_witness :
  exists line,
    create_command_line_ex true (lit "prog") sample_args = Some line
    /\ split_command_line line = lit "prog" :: sample_args.
Proof.
  apply command_line_round_trip.
  - split; [apply wfb_wf; reflexivity|].
    split; [reflexivity|]. cbn. intuition discriminate.
  - constructor; [|constructor; [|constructor; [|constructor]]];
      (split; [apply wfb_wf; reflexivity|]).
    + left. reflexivity.
    + right. cbn. intuition discriminate.
    + left. reflexivity.
Defined.

(** X3.  While the first pass of [create_command_line_ex] stays in the
    range of its [int] (the bytes it counts, with the one for the
    terminator, are at most [INT_MAX]), the size it gives to [malloc] is
    that count plus one, and the command line with its terminator never
    needs more: no store of the quoting or of the copying falls outside
    the buffer. *)
Theorem command_line_fits_allocation (cmd : list char)
        (args : list (list char)) (cmdline : list char) :
  wf cmd -> Forall wf args ->
  reserve_sum cmd args + 1 <= Exec.INT_MAX ->
  create_command_line_ex true cmd args = Some cmdline ->
  cmdline_alloc cmd args = reserve_sum cmd args + 1
  /\ Z.of_nat (length cmdline) + 1 <= cmdline_alloc cmd args.
Proof.
  intros Hcmd Hargs Hsum Hrun. unfold Exec.INT_MAX in Hsum.
  pose proof (create_command_line_ex_fits cmd args cmdline Hcmd Hargs Hrun).
  rewrite cmdline_alloc_exact by lia. split; [reflexivity | lia].
Qed.

(** The sample command line and its allocation. *)
Lemma command_line_fits_allocation_witness :
  cmdline_alloc (lit "prog") sample_args
  = reserve_sum (lit "prog") sample_args + 1
  /\ Z.of_nat (length sample_line) + 1
     <= cmdline_alloc (lit "prog") sample_args.
Proof.
  apply command_line_fits_allocation.
  - apply wfb_wf. reflexivity.
  - constructor; [|constructor; [|constructor; [|constructor]]];
      apply wfb_wf; reflexivity.
  - vm_compute. discriminate.
  - reflexivity.
Defined.

End CommandLine.

(* ===================================================================== *)
(** * Further properties of spawn and teardown *)
(* ===================================================================== *)

Section SpawnLifecycle.
Import CStr Exec Scenario.

#[local] Arguments WinQuote.create_command_line_ex : simpl never.

(** Equations between sets of descriptors, the new ones being fresh. *)
Ltac fd_sets Hfresh :=
  apply set_eq; intros x;
  repeat (progress
            rewrite ?elem_of_difference, ?elem_of_union, ?elem_of_singleton);
  match goal with
  | |- _ <-> x ∈ ?S =>
      let E := fresh "E" in
      destruct (decide (x ∈ S)) as [Hin|Hout];
      [ pose proof (Hfresh x Hin); assert (E : x ∈ S <-> True) by tauto
      | assert (E : x ∈ S <-> False) by tauto ];
      rewrite E; lia
  | |- _ <-> _ \/ x ∈ ?S =>
      let E := fresh "E" in
      destruct (decide (x ∈ S)) as [Hin|Hout];
      [ pose proof (Hfresh x Hin); assert (E : x ∈ S <-> True) by tauto
      | assert (E : x ∈ S <-> False) by tauto ];
      rewrite E; lia
  end.

Lemma posix_boot_fresh : Posix.fresh_ok Posix.boot.
Proof.
  intros fd Hfd. cbn in *.
  rewrite !elem_of_union, !elem_of_singleton in Hfd. lia.
Defined.

Lemma win_boot_fresh : Win32.fresh_ok Win32.boot.
Proof. intros h Hh. cbn in Hh. exfalso. revert Hh. apply not_elem_of_empty. Defined.

(** X4.  The Windows [start_process] is all or nothing: when it returns
    the null pointer, the open handles and the allocated blocks are those
    it started with, on every failure path; when it returns a handle, the
    only handles it leaves open are the four of the handle, and one block
    is allocated. *)
Theorem win_start_process_all_or_nothing (env : Win32.spawn_env)
        (cmd : list char) (args : list (list char)) (w : Win32.world) :
  Win32.fresh_ok w ->
  let r := Win32.start_process env cmd args w in
  match fst r with
  | Returns None =>
      Win32.handles (snd r) = Win32.handles w
      /\ Win32.heap (snd r) = Win32.heap w
  | Returns (Some h) =>
      Win32.handles (snd r)
      = {[Win32.input_fd h; Win32.output_fd h; Win32.error_fd h;
          Win32.hProcess h]} ∪ Win32.handles w
      /\ Win32.heap (snd r) = S (Win32.heap w)
  | _ => False
  end.
Proof. apply win_start_process_atomic. Qed.

(** The spawn of the scenario. *)
Lemma win_start_process_all_or_nothing_witness :
  let r := Win32.start_process win_env (lit "cmd") [lit "/c"] Win32.boot in
  match fst r with
  | Returns None =>
      Win32.handles (snd r) = Win32.handles Win32.boot
      /\ Win32.heap (snd r) = Win32.heap Win32.boot
  | Returns (Some h) =>
      Win32.handles (snd r)
      = {[Win32.input_fd h; Win32.output_fd h; Win32.error_fd h;
          Win32.hProcess h]} ∪ Win32.handles Win32.boot
      /\ Win32.heap (snd r) = S (Win32.heap Win32.boot)
  | _ => False
  end.
Proof.
  exact (win_start_process_all_or_nothing win_env (lit "cmd") [lit "/c"]
           Win32.boot win_boot_fresh).
Defined.

(** X5.  In the parent, once the three pipes and the [fork] have
    succeeded, the POSIX [start_process] keeps exactly three descriptors
    of the six: the write end of the first pipe and the read ends of the
    other two, which are the endpoints of the handle.  When the allocation
    of the handle fails it closes these three too and returns the null
    pointer; the child it forked stays, with no handle to reach it. *)
Theorem posix_start_process_parent (env : Posix.spawn_env)
        (cmd : list char) (args : list (list char)) (w : Posix.world)
        (child : positive) (fate : option Z) :
  Posix.fresh_ok w ->
  Posix.pipe_stdin_ok env = true -> Posix.pipe_stdout_ok env = true ->
  Posix.pipe_stderr_ok env = true ->
  Posix.fork_answer env = Posix.ForkInParent child fate ->
  let r := Posix.start_process env cmd args w in
  let n := Posix.next_fd w in
  Posix.children (snd r) !! Z.pos child = Some (Posix.Running fate)
  /\ if Posix.malloc_ok env then
       (exists h, fst r = Returns (Some h)
                  /\ Posix.pid h = Z.pos child
                  /\ Posix.input_fd h = n + 1
                  /\ Posix.output_fd h = n + 2
                  /\ Posix.error_fd h = n + 4)
       /\ Posix.fds (snd r) = {[n + 1; n + 2; n + 4]} ∪ Posix.fds w
     else
       fst r = Returns None /\ Posix.fds (snd r) = Posix.fds w
       /\ Posix.heap (snd r) = Posix.heap w.
Proof.
  intros Hfresh. destruct env as [p1 p2 p3 f e m]. cbn.
  intros -> -> -> ->.
  destruct m; cbn; (split; [apply lookup_insert_eq|]).
  - split; [eexists; split; [reflexivity|]; cbn; repeat split; lia|].
    fd_sets Hfresh.
  - split; [reflexivity|]. split; [fd_sets Hfresh | reflexivity].
Qed.

(** The spawn of the scenario. *)
Lemma posix_start_process_parent_witness :
  Posix.children posix_spawned !! 100 = Some (Posix.Running (Some 0))
  /\ (exists h,
         fst (Posix.start_process posix_env (lit "cat") [lit "cat"] Posix.boot)
         = Returns (Some h)
         /\ Posix.pid h = 100 /\ Posix.input_fd h = 3 + 1
         /\ Posix.output_fd h = 3 + 2 /\ Posix.error_fd h = 3 + 4)
     /\ Posix.fds posix_spawned = {[3 + 1; 3 + 2; 3 + 4]} ∪ Posix.fds Posix.boot.
Proof.
  exact (posix_start_process_parent posix_env (lit "cat") [lit "cat"]
           Posix.boot 100 (Some 0) posix_boot_fresh
           eq_refl eq_refl eq_refl eq_refl).
Defined.

(** X7.  A handle obtained from the POSIX [start_process] and given to
    [close_process] leaves the process with the descriptors it had before
    the spawn.  Unless the child never exits, in which case the call stays
    blocked in its wait, [close_process] returns with the handle's memory
    released and the child collected. *)
Theorem posix_spawn_then_close (env : Posix.spawn_env)
        (cmd : list char) (args : list (list char)) (w : Posix.world) :
  Posix.fresh_ok w -> 0 <= Posix.next_fd w ->
  let r1 := Posix.start_process env cmd args w in
  match fst r1 with
  | Returns (Some h) =>
      let r2 := Posix.close_process (Some h) (snd r1) in
      Posix.fds (snd r2) = Posix.fds w
      /\ match Posix.children (snd r1) !! Posix.pid h with
         | Some (Posix.Running None) => fst r2 = NoReturn
         | _ =>
             fst r2 = Returns tt
             /\ Posix.heap (snd r2) = Posix.heap w
             /\ Posix.children (snd r2) !! Posix.pid h = None
         end
  | _ => True
  end.
Proof.
  intros Hfresh Hn. destruct env as [p1 p2 p3 f e m].
  destruct p1;
    [destruct p2;
     [destruct p3;
      [destruct f as [| |child fate]; [| destruct e | destruct m] |]|]|];
    cbn zeta;
    unfold Posix.start_process, bind, Posix.pipe, Posix.fork;
    cbn -[Posix.close_process]; try exact I.
  unfold Posix.close_process, Posix.when.
  cbn [Posix.input_fd Posix.output_fd Posix.error_fd Posix.pid].
  rewrite !geb_true by lia.
  unfold bind, Posix.close, Posix.waitpid, Posix.free.
  rewrite wnohang_clear. cbn. rewrite !lookup_insert_eq.
  destruct fate as [st|]; cbn.
  - split; [fd_sets Hfresh|]. split; [reflexivity|].
    split; [reflexivity | apply lookup_delete_eq].
  - split; [fd_sets Hfresh | reflexivity].
Qed.

(** The spawn and the teardown of the scenario. *)
Lemma posix_spawn_then_close_witness :
  let r1 := Posix.start_process posix_env (lit "cat") [lit "cat"] Posix.boot in
  match fst r1 with
  | Returns (Some h) =>
      let r2 := Posix.close_process (Some h) (snd r1) in
      Posix.fds (snd r2) = Posix.fds Posix.boot
      /\ match Posix.children (snd r1) !! Posix.pid h with
         | Some (Posix.Running None) => fst r2 = NoReturn
         | _ =>
             fst r2 = Returns tt
             /\ Posix.heap (snd r2) = Posix.heap Posix.boot
             /\ Posix.children (snd r2) !! Posix.pid h = None
         end
  | _ => True
  end.
Proof.
  refine (posix_spawn_then_close posix_env (lit "cat") [lit "cat"] Posix.boot
            posix_boot_fresh _).
  cbn. lia.
Defined.

(** X8.  A handle obtained from the Windows [start_process] and given to
    [close_process] leaves the process with the handles and the memory it
    had before the spawn: [close_process] returns, whatever the wait for
    the exit answers, with the four handles of the handle closed and its
    block released. *)
Theorem win_spawn_then_close (env : Win32.spawn_env) (wait : Z)
        (cmd : list char) (args : list (list char)) (w : Win32.world) :
  Win32.fresh_ok w -> 0 <= Win32.next_handle w ->
  let r1 := Win32.start_process env cmd args w in
  match fst r1 with
  | Returns (Some h) =>
      let r2 := Win32.close_process wait (Some h) (snd r1) in
      fst r2 = Returns tt
      /\ Win32.handles (snd r2) = Win32.handles w
      /\ Win32.heap (snd r2) = Win32.heap w
  | _ => True
  end.
Proof.
  intros Hfresh Hn. destruct env as [p1 p2 p3 i1 i2 i3 c pa hm].
  destruct p1;
    [destruct p2;
     [destruct p3;
      [destruct i1;
       [destruct i2;
        [destruct i3;
         [destruct c; [destruct pa as [id|]; [destruct hm|]|]|]|]|]|]|]|];
    cbn zeta;
    unfold Win32.start_process, bind, Win32.CreatePipe, Win32.orelse,
      Win32.create_command_line_ex;
    cbn -[Win32.close_process];
    try (destruct (create_command_line_ex_total cmd args) as [cl Hcl];
         rewrite Hcl; cbn -[Win32.close_process]);
    try (unfold WinQuote.create_command_line_ex; cbn -[Win32.close_process]);
    try exact I.
  unfold Win32.close_process, Win32.when.
  cbn [Win32.input_fd Win32.output_fd Win32.error_fd Win32.hProcess].
  rewrite !win_valid_true by (unfold Win32.INVALID_HANDLE_VALUE; lia).
  unfold bind, Win32.CloseHandle, Win32.TerminateProcess,
    Win32.WaitForSingleObject, Win32.free.
  cbn. rewrite !lookup_insert_eq. cbn.
  split; [reflexivity|]. split; [fd_sets Hfresh | reflexivity].
Qed.

(** The spawn and the teardown of the scenario. *)
Lemma win_spawn_then_close_witness :
  let r1 := Win32.start_process win_env (lit "cmd") [lit "/c"] Win32.boot in
  match fst r1 with
  | Returns (Some h) =>
      let r2 := Win32.close_process Win32.WAIT_TIMEOUT (Some h) (snd r1) in
      fst r2 = Returns tt
      /\ Win32.handles (snd r2) = Win32.handles Win32.boot
      /\ Win32.heap (snd r2) = Win32.heap Win32.boot
  | _ => True
  end.
Proof.
  refine (win_spawn_then_close win_env Win32.WAIT_TIMEOUT (lit "cmd")
            [lit "/c"] Win32.boot win_boot_fresh _).
  cbn. lia.
Defined.



End SpawnLifecycle.

(* ===================================================================== *)
(** * Further properties of the input and output operations *)
(* ===================================================================== *)

Section EndpointEdges.
Import CStr Exec Scenario.

(** X12.  An endpoint marked invalid in the handle (a negative descriptor,
    [INVALID_HANDLE_VALUE]) is refused before any system call: the write
    and the reads return -1 with buffer and [*source] untouched
    ([read_available] when both of its endpoints are invalid), and the
    Windows [is_running] returns 0 for an invalid process handle. *)
Theorem invalid_endpoint_refused :
  (forall (h : Posix.ProcessHandle) (w : Posix.world),
      (forall script data length,
          Posix.input_fd h < 0 ->
          Posix.write_to_process script (Some h) data length w
          = (Returns (-1), w))
      /\ (forall a o buffer size ms,
          Posix.output_fd h < 0 ->
          Posix.read_from_output a o (Some h) buffer size ms w
          = (Returns (-1, buffer), w))
      /\ (forall a o buffer size ms,
          Posix.error_fd h < 0 ->
          Posix.read_from_error a o (Some h) buffer size ms w
          = (Returns (-1, buffer), w))
      /\ (forall a o buffer size ms source,
          Posix.output_fd h < 0 -> Posix.error_fd h < 0 ->
          Posix.read_available a o (Some h) buffer size ms source w
          = (Returns (-1, buffer, source), w)))
  /\
  (forall (h : Win32.ProcessHandle) (w : Win32.world),
      (forall o data length,
          Win32.input_fd h = Win32.INVALID_HANDLE_VALUE ->
          Win32.write_to_process o (Some h) data length w
          = (Returns (-1), w))
      /\ (forall env buffer size ms,
          Win32.output_fd h = Win32.INVALID_HANDLE_VALUE ->
          Win32.read_from_output env (Some h) buffer size ms w
          = (Returns (-1, buffer), w))
      /\ (forall env buffer size ms,
          Win32.error_fd h = Win32.INVALID_HANDLE_VALUE ->
          Win32.read_from_error env (Some h) buffer size ms w
          = (Returns (-1, buffer), w))
      /\ (forall env buffer size ms source,
          Win32.output_fd h = Win32.INVALID_HANDLE_VALUE ->
          Win32.error_fd h = Win32.INVALID_HANDLE_VALUE ->
          Win32.read_available env (Some h) buffer size ms source w
          = (Returns (-1, buffer, source), w))
      /\ (Win32.hProcess h = Win32.INVALID_HANDLE_VALUE ->
          Win32.is_running (Some h) w = (Returns 0, w))).
Proof.
  split; intros h w.
  - repeat split.
    + intros script data length Hfd. unfold Posix.write_to_process.
      now rewrite (proj2 (Z.ltb_lt _ _) Hfd).
    + intros a o buffer size ms Hfd. unfold Posix.read_from_output.
      now rewrite (proj2 (Z.ltb_lt _ _) Hfd).
    + intros a o buffer size ms Hfd. unfold Posix.read_from_error.
      now rewrite (proj2 (Z.ltb_lt _ _) Hfd).
    + intros a o buffer size ms source Ho He. unfold Posix.read_available.
      replace (Posix.output_fd h >=? 0) with false
        by (symmetry; rewrite Z.geb_leb; apply Z.leb_gt; lia).
      replace (Posix.error_fd h >=? 0) with false
        by (symmetry; rewrite Z.geb_leb; apply Z.leb_gt; lia).
      reflexivity.
  - repeat split.
    + intros o data length Hfd. unfold Win32.write_to_process.
      now rewrite Hfd.
    + intros env buffer size ms Hfd. unfold Win32.read_from_output.
      now rewrite Hfd.
    + intros env buffer size ms Hfd. unfold Win32.read_from_error.
      now rewrite Hfd.
    + intros env buffer size ms source Ho He. unfold Win32.read_available.
      rewrite Ho, He. reflexivity.
    + intros Hp. unfold Win32.is_running. now rewrite Hp.
Qed.

(** A handle whose input endpoint is marked invalid. *)
Lemma invalid_endpoint_refused_witness :
  Posix.write_to_process [] (Some (Posix.mkHandle 100 (-1) 5 7))
    (lit "hi") 2 Posix.boot
  = (Returns (-1), Posix.boot).
Proof.
  refine (proj1 (proj1 invalid_endpoint_refused
                   (Posix.mkHandle 100 (-1) 5 7) Posix.boot) [] (lit "hi") 2 _).
  cbn. lia.
Defined.

(** X13.  The POSIX [write_to_process] called with a length of 0 or less
    makes no [write]: it calls [fsync] on the input endpoint and returns
    0, also for a negative length. *)
Theorem posix_write_nothing (script : list Posix.write_outcome)
        (h : Posix.ProcessHandle) (data : list char) (length : Z)
        (w : Posix.world) :
  0 <= Posix.input_fd h -> length <= 0 ->
  Posix.write_to_process script (Some h) data length w
  = (Returns 0, Posix.record (Posix.EvFsync (Posix.input_fd h)) w).
Proof.
  intros Hfd Hlen. unfold Posix.write_to_process.
  replace (Posix.input_fd h <? 0) with false
    by (symmetry; apply Z.ltb_ge; lia).
  unfold bind. destruct script; cbn [Posix.write_loop];
    replace (0 <? length) with false by (symmetry; apply Z.ltb_ge; lia);
    reflexivity.
Qed.

(** A write of length -3. *)
Lemma posix_write_nothing_witness :
  Posix.write_to_process [Posix.WriteTakes 5] (Some posix_handle)
    (lit "hi") (-3) Posix.boot
  = (Returns 0, Posix.record (Posix.EvFsync 4) Posix.boot).
Proof.
  refine (posix_write_nothing [Posix.WriteTakes 5] posix_handle (lit "hi")
            (-3) Posix.boot _ _); cbn; lia.
Defined.

(** X14.  On an open process handle the Windows [is_running] answers from
    the exit code alone: it returns 1 exactly when the process runs or has
    exited with the code [STILL_ACTIVE] (259), and 0 otherwise.  A process
    that exits with code 259 is reported as running for ever. *)
Theorem win_is_running_reads_exit_code (h : Win32.ProcessHandle)
        (w : Win32.world) (st : Win32.process_state) :
  Win32.hProcess h <> Win32.INVALID_HANDLE_VALUE ->
  Win32.hProcess h ∈ Win32.handles w ->
  Win32.processes w !! Win32.hProcess h = Some st ->
  (fst (Win32.is_running (Some h) w) = Returns 1
   \/ fst (Win32.is_running (Some h) w) = Returns 0)
  /\ (fst (Win32.is_running (Some h) w) = Returns 1 <->
      st = Win32.Running
      \/ exists code, st = Win32.Exited code
                      /\ to_dword code = Win32.STILL_ACTIVE).
Proof.
  intros Hv Hin Hst. rewrite (win_probe h w st Hv Hin Hst). cbn [fst].
  destruct st as [|code]; cbn [Win32.probe_value].
  - split; [auto|]. split; auto.
  - destruct (Z.eqb_spec (to_dword code) Win32.STILL_ACTIVE) as [E|E].
    + split; [auto|]. split; [|reflexivity]. intros _. right. eauto.
    + split; [auto|]. split; [discriminate|].
      intros [Hr|(c & [= <-] & Hc)]; [discriminate | contradiction].
Qed.

(** The process of the scenario after it has exited with code 259. *)
Lemma win_is_running_reads_exit_code_witness :
  fst (Win32.is_running (Some win_handle)
         (Win32.process_exits 10 259 win_spawned)) = Returns 1.
Proof.
  refine (proj2 (proj2 (win_is_running_reads_exit_code win_handle
                          (Win32.process_exits 10 259 win_spawned)
                          (Win32.Exited 259) _ _ _)) _).
  - discriminate.
  - apply (bool_decide_unpack _). vm_compute. exact I.
  - vm_compute. reflexivity.
  - right. exists 259. split; reflexivity.
Defined.

(** X15.  When [ReadFile] fails at once with an error that is neither
    [ERROR_IO_PENDING] nor [ERROR_BROKEN_PIPE], the Windows
    [read_from_output] and [read_from_error] assign -1 to the unsigned
    byte count and then store the terminator at index 4294967295: outside
    every buffer of at most [INT_MAX] bytes. *)
Theorem win_read_error_stores_out_of_bounds (env : Win32.read_env)
        (h : Win32.ProcessHandle) (buffer : list char) (size ms : Z)
        (w : Win32.world) :
  0 < Win32.next_handle w ->
  Win32.event_granted env = true -> Win32.other_error env = true ->
  Z.of_nat (length buffer) <= INT_MAX ->
  (Win32.output_fd h <> Win32.INVALID_HANDLE_VALUE ->
   fst (Win32.read_from_output env (Some h) buffer size ms w) = Undefined)
  /\ (Win32.error_fd h <> Win32.INVALID_HANDLE_VALUE ->
      fst (Win32.read_from_error env (Some h) buffer size ms w) = Undefined).
Proof.
  intros Hn Hg Ho Hlen. split; intros Hfd.
  - unfold Win32.read_from_output.
    replace (Win32.output_fd h =? Win32.INVALID_HANDLE_VALUE) with false
      by (symmetry; now apply Z.eqb_neq).
    destruct (win_read_from_handle_outcomes env (Win32.output_fd h) buffer
                size ms w Hfd Hn) as [_ H].
    destruct (H Hg) as (_ & _ & _ & _ & Hbad). now apply Hbad.
  - unfold Win32.read_from_error.
    replace (Win32.error_fd h =? Win32.INVALID_HANDLE_VALUE) with false
      by (symmetry; now apply Z.eqb_neq).
    destruct (win_read_from_handle_outcomes env (Win32.error_fd h) buffer
                size ms w Hfd Hn) as [_ H].
    destruct (H Hg) as (_ & _ & _ & _ & Hbad). now apply Hbad.
Qed.

(** A read that fails with error 5 (access denied). *)
Lemma win_read_error_stores_out_of_bounds_witness :
  fst (Win32.read_from_output win_read_denied (Some win_handle)
         stale_buffer 2 100 win_spawned) = Undefined.
Proof.
  refine (proj1 (win_read_error_stores_out_of_bounds win_read_denied
                   win_handle stale_buffer 2 100 win_spawned _ _ _ _) _).
  - vm_compute. reflexivity.
  - reflexivity.
  - reflexivity.
  - unfold INT_MAX. cbn. lia.
  - discriminate.
Defined.

End EndpointEdges.

Section ReadAvailable.
Import CStr Exec Scenario.

(** The [read] and the termination leave one [read] in the trace. *)
Lemma posix_read_terminated_trace (o : Posix.read_outcome) (fd : Z)
      (buffer : list char) (size : Z) (w : Posix.world) :
  1 <= size <= INT_MAX -> Z.of_nat (length buffer) = size ->
  exists n b res,
    Posix.read_terminated o fd buffer size w
    = (Returns (n, b), Posix.record (Posix.EvRead fd (size - 1) res) w).
Proof.
  intros Hs Hb. unfold Posix.read_terminated, bind.
  destruct o as [e|data]; cbn [Posix.read].
  - cbn [fst snd]. change (to_int (-1)) with (-1). cbn.
    do 3 eexists. reflexivity.
  - rewrite to_size_t_small by lia.
    set (n := Z.min (size - 1) (Z.of_nat (length data))).
    assert (Hn : 0 <= n <= size - 1) by lia.
    assert (Hd : n <= Z.of_nat (length data)) by lia.
    clearbody n.
    replace (n <=? Z.of_nat (length buffer)) with true
      by (symmetry; apply Z.leb_le; lia).
    cbn [fst snd].
    rewrite !(to_int_small n) by lia.
    destruct (Z.gtb_spec n 0) as [Hpos|Hzero].
    + rewrite fill_terminate by lia. do 3 eexists. reflexivity.
    + assert (n = 0) as -> by lia. cbn. do 3 eexists. reflexivity.
Qed.

Lemma posix_last_read_record (fd count res : Z) (w : Posix.world) :
  Posix.last_read (Posix.trace (Posix.record (Posix.EvRead fd count res) w))
  = Some fd.
Proof.
  unfold Posix.last_read. cbn [Posix.record Posix.trace].
  now rewrite last_snoc.
Qed.

(** X10.  When [poll] reports ready descriptors, the POSIX
    [read_available] reads from exactly one endpoint and names it in
    [*source]: the output endpoint (1) when the first polled entry has
    [POLLIN] and the output endpoint is valid, even if the error endpoint
    is ready too; the error endpoint (2) when it is the first ready entry;
    with no [POLLIN] at all it reads nothing, returns 0 and leaves
    [*source] as it was.  A null [source] stays null. *)
Theorem posix_read_available_source (a : Posix.poll_answer)
        (o : Posix.read_outcome) (h : Posix.ProcessHandle)
        (buffer : list char) (size ms : Z) (source : option Z)
        (w : Posix.world) :
  1 <= size <= INT_MAX -> Z.of_nat (length buffer) = size ->
  Posix.poll_result a <> -1 -> Posix.poll_result a <> 0 ->
  let r := Posix.read_available a o (Some h) buffer size ms source w in
  let ready i := Posix.has (nth i (Posix.poll_revents a) 0) Posix.POLLIN in
  let took fd s :=
    (exists n b, fst r = Returns (n, b, s))
    /\ Posix.last_read (Posix.trace (snd r)) = Some fd in
  let none :=
    fst r = Returns (0, buffer, source)
    /\ Posix.last_read (Posix.trace (snd r)) = None in
  (0 <= Posix.output_fd h -> 0 <= Posix.error_fd h ->
   if ready 0%nat then took (Posix.output_fd h) (Posix.assign source 1)
   else if ready 1%nat then took (Posix.error_fd h) (Posix.assign source 2)
   else none)
  /\ (0 <= Posix.output_fd h -> Posix.error_fd h < 0 ->
      if ready 0%nat then took (Posix.output_fd h) (Posix.assign source 1)
      else none)
  /\ (Posix.output_fd h < 0 -> 0 <= Posix.error_fd h ->
      if ready 0%nat then took (Posix.error_fd h) (Posix.assign source 2)
      else none).
Proof.
  intros Hs Hb Hne He r ready took none.
  assert (Hneg : forall x, x < 0 -> (x >=? 0) = false).
  { intros x Hx. rewrite Z.geb_leb. apply Z.leb_gt. lia. }
  assert (Htook : forall (fd : Z) (s : option Z) (w1 : Posix.world),
             exists n b res,
               bind (Posix.read_terminated o fd buffer size)
                    (fun r0 : Z * list char => ret (fst r0, snd r0, s)) w1
               = (Returns (n, b, s),
                  Posix.record (Posix.EvRead fd (size - 1) res) w1)).
  { intros fd s w1. unfold bind.
    destruct (posix_read_terminated_trace o fd buffer size w1 Hs Hb)
      as (n & b & res & ->).
    exists n, b, res. reflexivity. }
  subst took none r. unfold Posix.read_available.
  repeat split; intros Hout Herr.
  - rewrite !geb_true by assumption. cbn [app length Nat.eqb].
    unfold bind, Posix.poll. cbn [fst snd imap].
    rewrite (proj2 (Z.eqb_neq _ _) Hne), (proj2 (Z.eqb_neq _ _) He).
    cbn [Posix.scan_ready Posix.pfd_revents Nat.eqb andb].
    rewrite !geb_true by assumption. subst ready. cbn beta.
    destruct (Posix.has (nth 0 _ 0) Posix.POLLIN).
    + destruct (Htook (Posix.output_fd h) (Posix.assign source 1)
                  (Posix.record (Posix.EvPoll [Posix.output_fd h; Posix.error_fd h]
                                   ms (Posix.poll_result a)) w))
        as (n & b & res & ->).
      cbn [fst snd]. rewrite posix_last_read_record. eauto.
    + cbn [compose Posix.pfd_revents]. destruct (Posix.has (nth 1 _ 0) Posix.POLLIN).
      * destruct (Htook (Posix.error_fd h) (Posix.assign source 2)
                    (Posix.record (Posix.EvPoll [Posix.output_fd h; Posix.error_fd h]
                                     ms (Posix.poll_result a)) w))
          as (n & b & res & ->).
        cbn [fst snd]. rewrite posix_last_read_record. eauto.
      * cbn [fst snd ret Posix.record Posix.trace]. split; [reflexivity|].
        unfold Posix.last_read. now rewrite last_snoc.
  - rewrite geb_true by assumption. rewrite (Hneg _ Herr).
    cbn [app length Nat.eqb].
    unfold bind, Posix.poll. cbn [fst snd imap].
    rewrite (proj2 (Z.eqb_neq _ _) Hne), (proj2 (Z.eqb_neq _ _) He).
    cbn [Posix.scan_ready Posix.pfd_revents Nat.eqb andb].
    rewrite geb_true by assumption. subst ready. cbn beta.
    destruct (Posix.has (nth 0 _ 0) Posix.POLLIN).
    + destruct (Htook (Posix.output_fd h) (Posix.assign source 1)
                  (Posix.record (Posix.EvPoll [Posix.output_fd h]
                                   ms (Posix.poll_result a)) w))
        as (n & b & res & ->).
      cbn [fst snd]. rewrite posix_last_read_record. eauto.
    + cbn [fst snd ret Posix.record Posix.trace]. split; [reflexivity|].
      unfold Posix.last_read. now rewrite last_snoc.
  - rewrite (Hneg _ Hout). rewrite geb_true by assumption.
    cbn [app length Nat.eqb].
    unfold bind, Posix.poll. cbn [fst snd imap].
    rewrite (proj2 (Z.eqb_neq _ _) Hne), (proj2 (Z.eqb_neq _ _) He).
    cbn [Posix.scan_ready Posix.pfd_revents Nat.eqb andb].
    rewrite (Hneg _ Hout). subst ready. cbn beta.
    destruct (Posix.has (nth 0 _ 0) Posix.POLLIN).
    + destruct (Htook (Posix.error_fd h) (Posix.assign source 2)
                  (Posix.record (Posix.EvPoll [Posix.error_fd h]
                                   ms (Posix.poll_result a)) w))
        as (n & b & res & ->).
      cbn [fst snd]. rewrite posix_last_read_record. eauto.
    + cbn [fst snd ret Posix.record Posix.trace]. split; [reflexivity|].
      unfold Posix.last_read. now rewrite last_snoc.
Qed.

(** Both endpoints of the scenario are ready: the output endpoint, the
    descriptor 5, is the one read. *)
Lemma posix_read_available_source_witness :
  let r := Posix.read_available poll_both (Posix.ReadGives (lit "a"))
             (Some posix_handle) stale_buffer 2 100 (Some 0) posix_spawned in
  (exists n b, fst r = Returns (n, b, Some 1))
  /\ Posix.last_read (Posix.trace (snd r)) = Some 5.
Proof.
  refine (proj1 (posix_read_available_source poll_both
                   (Posix.ReadGives (lit "a")) posix_handle stale_buffer
                   2 100 (Some 0) posix_spawned _ _ _ _) _ _).
  - unfold INT_MAX. lia.
  - reflexivity.
  - discriminate.
  - discriminate.
  - cbn. lia.
  - cbn. lia.
Defined.

Lemma win_last_read_record (hd count : Z) (ok : bool) (w : Win32.world) :
  Win32.last_read
    (Win32.trace (Win32.record (Win32.EvReadFile hd count ok) w))
  = Some hd.
Proof.
  unfold Win32.last_read. cbn [Win32.record Win32.trace].
  now rewrite last_snoc.
Qed.

(** The Windows [read_available] when the wait is answered for one of the
    two handles. *)
Lemma win_read_available_ready (env : Win32.avail_env)
      (h : Win32.ProcessHandle) (buffer : list char) (size ms : Z)
      (source : option Z) (w : Win32.world) :
  Win32.output_fd h <> Win32.INVALID_HANDLE_VALUE ->
  Win32.error_fd h <> Win32.INVALID_HANDLE_VALUE ->
  1 <= size <= INT_MAX -> Z.of_nat (length buffer) = size ->
  0 <= Win32.multi_wait_answer env < 2 ->
  let hd := nth (Z.to_nat (Win32.multi_wait_answer env))
                [Win32.output_fd h; Win32.error_fd h] 0 in
  exists n b w',
    Win32.read_available env (Some h) buffer size ms source w
    = (Returns (n, b, Win32.assign source
                        (if hd =? Win32.output_fd h then 1 else 2)), w')
    /\ Win32.last_read (Win32.trace w') = Some hd
    /\ (forall e, Win32.avail_readfile env = Win32.ReadFails e ->
                  n = 0 /\ b = buffer).
Proof.
  intros Hout Herr Hs Hb Hidx hd. unfold Win32.read_available.
  rewrite !win_valid_true by assumption. cbn [app length].
  change (Z.of_nat 2) with 2. change (2 =? 0) with false. cbv iota.
  unfold bind at 1, Win32.WaitForMultipleObjects.
  unfold Win32.WAIT_OBJECT_0, Win32.WAIT_TIMEOUT.
  replace (Win32.multi_wait_answer env =? 258) with false
    by (symmetry; apply Z.eqb_neq; lia).
  replace ((Win32.multi_wait_answer env >=? 0)
           && (Win32.multi_wait_answer env <? 0 + 2)) with true
    by (symmetry; apply andb_true_iff; split;
        [apply Z.geb_le | apply Z.ltb_lt]; lia).
  rewrite Z.sub_0_r. fold hd. generalize hd. clear hd. intros hd.
  set (s := Win32.assign source _).
  unfold bind at 1.
  destruct (Win32.avail_readfile env) as [data|e]; cbn [Win32.ReadFile].
  - rewrite to_dword_small by lia.
    set (k := Z.min (size - 1) (Z.of_nat (length data))).
    assert (Hk : 0 <= k <= size - 1) by lia.
    assert (Hd : k <= Z.of_nat (length data)) by lia. clearbody k.
    replace (k <=? Z.of_nat (length buffer))
      with true by (symmetry; apply Z.leb_le; lia).
    cbn [andb].
    destruct (Z.gtb_spec k 0) as [Hpos|Hzero].
    + unfold bind. rewrite fill_terminate by lia. unfold ret.
      do 3 eexists. split; [reflexivity|].
      split; [apply win_last_read_record | discriminate].
    + assert (k = 0) as -> by lia. unfold bind, Win32.GetLastError.
      destruct (_ =? Win32.ERROR_BROKEN_PIPE); do 3 eexists;
        (split; [reflexivity|]);
        (split; [apply win_last_read_record | discriminate]).
  - cbn [andb]. unfold bind, Win32.GetLastError.
    destruct (_ =? Win32.ERROR_BROKEN_PIPE); do 3 eexists;
      (split; [reflexivity|]);
      (split; [apply win_last_read_record | intros _ _; split; reflexivity]).
Qed.

(** X11.  The Windows [read_available] on a handle with two distinct valid
    endpoints follows the answer of the wait: index 0 reads the output
    endpoint and sets [*source] to 1, index 1 reads the error endpoint and
    sets it to 2, a time-out returns 0 and a failed wait -1 with no read
    and [*source] as it was.  A [ReadFile] that fails after the wait is
    reported as 0 with the buffer untouched, [*source] being set
    already. *)
Theorem win_read_available_source (env : Win32.avail_env)
        (h : Win32.ProcessHandle) (buffer : list char) (size ms : Z)
        (source : option Z) (w : Win32.world) :
  Win32.output_fd h <> Win32.INVALID_HANDLE_VALUE ->
  Win32.error_fd h <> Win32.INVALID_HANDLE_VALUE ->
  Win32.output_fd h <> Win32.error_fd h ->
  1 <= size <= INT_MAX -> Z.of_nat (length buffer) = size ->
  let r := Win32.read_available env (Some h) buffer size ms source w in
  let answer := Win32.multi_wait_answer env in
  let failed := exists e, Win32.avail_readfile env = Win32.ReadFails e in
  let took hd s :=
    (exists n b, fst r = Returns (n, b, s)
                 /\ (failed -> n = 0 /\ b = buffer))
    /\ Win32.last_read (Win32.trace (snd r)) = Some hd in
  (answer = Win32.WAIT_OBJECT_0 ->
   took (Win32.output_fd h) (Win32.assign source 1))
  /\ (answer = Win32.WAIT_OBJECT_0 + 1 ->
      took (Win32.error_fd h) (Win32.assign source 2))
  /\ (answer = Win32.WAIT_TIMEOUT ->
      fst r = Returns (0, buffer, source)
      /\ Win32.last_read (Win32.trace (snd r)) = None)
  /\ (answer = Win32.WAIT_FAILED ->
      fst r = Returns (-1, buffer, source)
      /\ Win32.last_read (Win32.trace (snd r)) = None).
Proof.
  intros Hout Herr Hne Hs Hb r answer failed took.
  subst took failed answer. cbv beta.
  split; [|split; [|split]]; intros Ha.
  - destruct (win_read_available_ready env h buffer size ms source w
                Hout Herr Hs Hb) as (n & b & w' & E & Hl & Hf).
    { rewrite Ha. unfold Win32.WAIT_OBJECT_0. lia. }
    revert E Hl. rewrite Ha. change (Z.to_nat Win32.WAIT_OBJECT_0) with 0%nat.
    cbn [nth]. rewrite Z.eqb_refl. intros E Hl.
    subst r. rewrite E. cbn [fst snd]. split; [|exact Hl].
    exists n, b. split; [reflexivity|]. intros [e He]. eauto.
  - destruct (win_read_available_ready env h buffer size ms source w
                Hout Herr Hs Hb) as (n & b & w' & E & Hl & Hf).
    { rewrite Ha. unfold Win32.WAIT_OBJECT_0. lia. }
    revert E Hl. rewrite Ha.
    change (Z.to_nat (Win32.WAIT_OBJECT_0 + 1)) with 1%nat.
    cbn [nth].
    replace (Win32.error_fd h =? Win32.output_fd h) with false
      by (symmetry; apply Z.eqb_neq; congruence).
    intros E Hl.
    subst r. rewrite E. cbn [fst snd]. split; [|exact Hl].
    exists n, b. split; [reflexivity|]. intros [e He]. eauto.
  - subst r. unfold Win32.read_available.
    rewrite !win_valid_true by assumption. cbn [app length].
    change (Z.of_nat 2) with 2. change (2 =? 0) with false. cbv iota.
    unfold bind, Win32.WaitForMultipleObjects. rewrite Ha.
    rewrite Z.eqb_refl. cbn [fst snd ret Win32.record Win32.trace].
    split; [reflexivity|]. unfold Win32.last_read. now rewrite last_snoc.
  - subst r. unfold Win32.read_available.
    rewrite !win_valid_true by assumption. cbn [app length].
    change (Z.of_nat 2) with 2. change (2 =? 0) with false. cbv iota.
    unfold bind, Win32.WaitForMultipleObjects. rewrite Ha.
    change (Win32.WAIT_FAILED =? Win32.WAIT_TIMEOUT) with false.
    change ((Win32.WAIT_FAILED >=? Win32.WAIT_OBJECT_0)
            && (Win32.WAIT_FAILED <? Win32.WAIT_OBJECT_0 + 2)) with false.
    rewrite Z.eqb_refl. cbn [fst snd ret Win32.record Win32.trace].
    split; [reflexivity|]. unfold Win32.last_read. now rewrite last_snoc.
Qed.

(** The wait is answered for the second handle of the scenario, the
    handle 8. *)
Lemma win_read_available_source_witness :
  let r := Win32.read_available win_avail_second (Some win_handle)
             stale_buffer 2 100 (Some 0) win_spawned in
  (exists n b,
      fst r = Returns (n, b, Some 2)
      /\ ((exists e, Win32.avail_readfile win_avail_second = Win32.ReadFails e)
          -> n = 0 /\ b = stale_buffer))
  /\ Win32.last_read (Win32.trace (snd r)) = Some 8.
Proof.
  refine (proj1 (proj2 (win_read_available_source win_avail_second
                          win_handle stale_buffer 2 100 (Some 0) win_spawned
                          _ _ _ _ _)) _).
  - discriminate.
  - discriminate.
  - discriminate.
  - unfold INT_MAX. lia.
  - reflexivity.
  - reflexivity.
Defined.

End ReadAvailable.

Section EventHandle.
Import CStr Exec Scenario.

Lemma fresh_add_remove (s : gset Z) (x : Z) :
  x ∉ s -> ({[x]} ∪ s) ∖ {[x]} = s.
Proof.
  intros Hx. apply set_eq. intros y.
  rewrite elem_of_difference, elem_of_union, elem_of_singleton.
  split.
  - intros [[->|Hy] Hne]; [contradiction | exact Hy].
  - intros Hy. split; [right; exact Hy | intros ->; contradiction].
Qed.

Lemma win_read_from_handle_handles (env : Win32.read_env) (h : Z)
      (buffer : list char) (size ms : Z) (w : Win32.world) :
  Win32.fresh_ok w -> 0 < Win32.next_handle w ->
  let r := Win32.read_from_handle env h buffer size ms w in
  fst r <> Undefined -> Win32.handles (snd r) = Win32.handles w.
Proof.
  intros Hf Hn.
  assert (Hnull : (Win32.next_handle w =? Win32.NULL_HANDLE) = false)
    by (apply Z.eqb_neq; unfold Win32.NULL_HANDLE; lia).
  assert (Hinv : (Win32.next_handle w =? Win32.INVALID_HANDLE_VALUE) = false)
    by (apply Z.eqb_neq; unfold Win32.INVALID_HANDLE_VALUE; lia).
  assert (Hnew : Win32.next_handle w ∉ Win32.handles w).
  { intros Hin. apply Hf in Hin. lia. }
  assert (Hset := fresh_add_remove _ _ Hnew).
  unfold Win32.read_from_handle.
  destruct (h =? Win32.INVALID_HANDLE_VALUE); [reflexivity|].
  unfold bind, Win32.CreateEvent.
  destruct (Win32.event_granted env); cbn [fst snd]; [|reflexivity].
  rewrite Hnull, Hinv. cbn [negb Win32.when Win32.CloseHandle].
  unfold Win32.GetLastError, Win32.WaitForSingleObject, Win32.CancelIo.
  unfold Win32.ReadFile, Win32.GetOverlappedResult, store.
  destruct (Win32.readfile_answer env) as [data|e];
    [|destruct (Win32.overlapped_answer env) as [data|]];
    cbn [fst snd negb ret undefined Win32.handles Win32.record
         Win32.set_handles Win32.set_next_handle Win32.set_last_error
         Win32.last_error];
    repeat (match goal with
            | |- context [if ?c then _ else _] => destruct c
            end;
            cbn [fst snd negb ret undefined Win32.handles Win32.record
                 Win32.set_handles Win32.set_next_handle
                 Win32.set_last_error Win32.last_error]);
    try (intros _; exact Hset);
    try (intros H; exfalso; apply H; reflexivity).
Qed.

(** X9.  The Windows read operations leave the set of open handles as
    they found it whenever they return: the event that [read_from_output]
    and [read_from_error] create for the overlapped read is closed again
    on every path (data, end of stream, time-out, failed wait, failed
    result), and [read_available] opens nothing. *)
Theorem win_reads_release_event (env : Win32.read_env)
        (aenv : Win32.avail_env) (h : Win32.ProcessHandle)
        (buffer : list char) (size ms : Z) (source : option Z)
        (w : Win32.world) :
  Win32.fresh_ok w -> 0 < Win32.next_handle w ->
  let kept {A : Type} (r : outcome A * Win32.world) :=
    fst r <> Undefined -> Win32.handles (snd r) = Win32.handles w in
  kept (Win32.read_from_output env (Some h) buffer size ms w)
  /\ kept (Win32.read_from_error env (Some h) buffer size ms w)
  /\ kept (Win32.read_available aenv (Some h) buffer size ms source w).
Proof.
  intros Hf Hn kept. subst kept. cbv beta. split; [|split].
  - unfold Win32.read_from_output.
    destruct (Win32.output_fd h =? Win32.INVALID_HANDLE_VALUE);
      [reflexivity|].
    now apply win_read_from_handle_handles.
  - unfold Win32.read_from_error.
    destruct (Win32.error_fd h =? Win32.INVALID_HANDLE_VALUE);
      [reflexivity|].
    now apply win_read_from_handle_handles.
  - unfold Win32.read_available.
    destruct (_ =? 0); [reflexivity|].
    unfold bind, Win32.WaitForMultipleObjects, Win32.GetLastError,
      Win32.ReadFile, store.
    destruct (Win32.avail_readfile aenv) as [data|e];
      cbn [fst snd negb ret undefined Win32.handles Win32.record
           Win32.set_handles Win32.set_next_handle Win32.set_last_error
           Win32.last_error];
      repeat (match goal with
              | |- context [if ?c then _ else _] => destruct c
              end;
              cbn [fst snd negb andb ret undefined Win32.handles
                   Win32.record Win32.set_handles Win32.set_next_handle
                   Win32.set_last_error Win32.last_error]);
      try (intros _; reflexivity);
      try (intros H; exfalso; apply H; reflexivity).
Qed.

(** A read that times out in a process with no handle open. *)
Lemma win_reads_release_event_witness :
  Win32.handles
    (snd (Win32.read_from_output win_read_pending (Some win_handle)
            stale_buffer 2 100 Win32.boot))
  = Win32.handles Win32.boot.
Proof.
  refine (proj1 (win_reads_release_event win_read_pending win_avail_second
                   win_handle stale_buffer 2 100 None Win32.boot
                   win_boot_fresh _) _).
  - cbn. lia.
  - discriminate.
Defined.

End EventHandle.
